(** * A verified model of [library/names.py]

    The program is a singly linked list of names: a [Node] class with the
    fields [name] and [next], and a [LinkedList] class with the field [head]
    and the methods [add], [remove] and [display].

    Python objects are mutable and are reached through references, so the
    model keeps an explicit object store: every [Node] and every [LinkedList]
    lives at an address, the fields [next] and [head] hold an address or
    [None], and the methods are programs of a small state-and-error monad
    that read and write fields of the store.  The three [while] loops are
    bounded by a fuel argument; running out of fuel is a result of its own,
    distinct from a finished call. *)

From stdpp Require Import gmap strings list fin_maps.

(** ** The object store *)

(** Addresses of objects (what a Python reference points to). *)
Abbreviation loc := positive.

(** [class Node]: [self.name] and [self.next]. *)
Record Node := mkNode { name : string; next : option loc }.

(** [class LinkedList]: [self.head]. *)
Record LinkedList := mkLinkedList { head : option loc }.

(** The store: the [Node] objects, the [LinkedList] objects, and the lines
    written to standard output by [print]. *)
Record store := mkStore {
  nodes : gmap loc Node;
  lists : gmap loc LinkedList;
  stdout : list string
}.

Definition empty_store : store := mkStore ∅ ∅ [].

(** ** The monad of method bodies *)

(** A call either finishes with a value and a new store, exhausts the fuel of
    a loop, or follows a reference to no object (which a Python program
    cannot do: the case only exists because stores are arbitrary maps). *)
Inductive outcome (A : Type) : Type :=
| Done (a : A) (s : store)
| Timeout
| Dangling.
Arguments Done {A} a s.
Arguments Timeout {A}.
Arguments Dangling {A}.

Definition M (A : Type) : Type := store → outcome A.

#[global] Instance M_mret : MRet M := λ A a s, Done a s.

#[global] Instance M_bind : MBind M := λ A B k m s,
  match m s with
  | Done a s' => k a s'
  | Timeout => Timeout
  | Dangling => Dangling
  end.

Definition timeout {A} : M A := λ _, Timeout.

(** Field reads and writes. *)
Definition read_name (l : loc) : M string :=
  λ s, match nodes s !! l with
       | Some n => Done (name n) s
       | None => Dangling
       end.

Definition read_next (l : loc) : M (option loc) :=
  λ s, match nodes s !! l with
       | Some n => Done (next n) s
       | None => Dangling
       end.

Definition write_next (l : loc) (v : option loc) : M unit :=
  λ s, match nodes s !! l with
       | Some n =>
           Done tt (mkStore (<[l := mkNode (name n) v]> (nodes s))
                            (lists s) (stdout s))
       | None => Dangling
       end.

Definition read_head (self : loc) : M (option loc) :=
  λ s, match lists s !! self with
       | Some L => Done (head L) s
       | None => Dangling
       end.

Definition write_head (self : loc) (v : option loc) : M unit :=
  λ s, match lists s !! self with
       | Some _ =>
           Done tt (mkStore (nodes s) (<[self := mkLinkedList v]> (lists s))
                            (stdout s))
       | None => Dangling
       end.

(** [print(x)]: one more line on standard output. *)
Definition print (line : string) : M unit :=
  λ s, Done tt (mkStore (nodes s) (lists s) (stdout s ++ [line])).

(** [Node(name)]: a new object at an address no node has, with
    [name = name] and [next = None] (lines 3-5). *)
Definition new_Node (x : string) : M loc :=
  λ s, let l := fresh (dom (nodes s)) in
       Done l (mkStore (<[l := mkNode x None]> (nodes s)) (lists s) (stdout s)).

(** [LinkedList()]: a new object with [head = None] (lines 10-11). *)
Definition new_LinkedList : M loc :=
  λ s, let l := fresh (dom (lists s)) in
       Done l (mkStore (nodes s) (<[l := mkLinkedList None]> (lists s))
                       (stdout s)).

(** ** The methods of [LinkedList] *)

(** Lines 20-21: [while current.next: current = current.next].  The result
    is the value of [current] when the loop ends. *)
Fixpoint add_loop (fuel : nat) (current : loc) : M loc :=
  match fuel with
  | O => timeout
  | S fuel' =>
      nx ← read_next current;
      match nx with
      | Some c' => add_loop fuel' c'
      | None => mret current
      end
  end.

(** Lines 14-22. *)
Definition add (fuel : nat) (self : loc) (x : string) : M unit :=
  new_node ← new_Node x;
  h ← read_head self;
  match h with
  | None => write_head self (Some new_node)
  | Some current =>
      last ← add_loop fuel current;
      write_next last (Some new_node)
  end.

(** Lines 28-37: the loop of [remove], with the loop variables [current] and
    [prev] as arguments. *)
Fixpoint remove_loop (fuel : nat) (self : loc) (x : string)
    (current prev : option loc) : M bool :=
  match current with
  | None => mret false
  | Some c =>
      match fuel with
      | O => timeout
      | S fuel' =>
          nm ← read_name c;
          if String.eqb nm x then
            (match prev with
             | Some p => nx ← read_next c; write_next p nx
             | None => nx ← read_next c; write_head self nx
             end) ;;
            mret true
          else
            nx ← read_next c;
            remove_loop fuel' self x nx (Some c)
      end
  end.

(** Lines 25-37. *)
Definition remove (fuel : nat) (self : loc) (x : string) : M bool :=
  current ← read_head self;
  remove_loop fuel self x current None.

(** Lines 45-47. *)
Fixpoint display_loop (fuel : nat) (current : option loc) : M unit :=
  match current with
  | None => mret tt
  | Some c =>
      match fuel with
      | O => timeout
      | S fuel' =>
          nm ← read_name c;
          print nm ;;
          nx ← read_next c;
          display_loop fuel' nx
      end
  end.

(** Lines 40-47. *)
Definition display (fuel : nat) (self : loc) : M unit :=
  current ← read_head self;
  match current with
  | None => print "The list is empty."
  | Some _ => display_loop fuel current
  end.

(** A sequence of [add] calls on the same list, in the order of [xs]. *)
Fixpoint add_all (fuel : nat) (self : loc) (xs : list string) : M unit :=
  match xs with
  | [] => mret tt
  | x :: xs' => add fuel self x ;; add_all fuel self xs'
  end.

(** The example of lines 51-64. *)
Definition example_usage (fuel : nat) : M unit :=
  my_list ← new_LinkedList;
  add fuel my_list "Alice" ;;
  add fuel my_list "Bob" ;;
  add fuel my_list "Charlie" ;;
  add fuel my_list "Garfield" ;;
  print "Current List:" ;;
  display fuel my_list ;;
  print (String (Ascii.ascii_of_nat 10) "Removing Bob...") ;;
  remove fuel my_list "Bob" ;;
  print "Updated List:" ;;
  display fuel my_list.

(** ** The abstract view of a store *)

(** A cell is a node seen from outside: its address and its name. *)
Abbreviation cell := (loc * string)%type.

(** [seg h hd cs tl]: following [next] from the reference [hd] in the node
    map [h] visits exactly the nodes [cs], in this order, and then arrives at
    the reference [tl]. *)
Fixpoint seg (h : gmap loc Node) (hd : option loc) (cs : list cell)
    (tl : option loc) : Prop :=
  match cs with
  | [] => hd = tl
  | c :: cs' =>
      hd = Some c.1 ∧ ∃ nx, h !! c.1 = Some (mkNode c.2 nx) ∧ seg h nx cs' tl
  end.

(** A chain is a segment that ends in [None]. *)
Definition chain (h : gmap loc Node) (hd : option loc) (cs : list cell) : Prop :=
  seg h hd cs None.

(** The list object at [self] holds the nodes [cs], head to tail. *)
Definition is_list (s : store) (self : loc) (cs : list cell) : Prop :=
  ∃ L, lists s !! self = Some L ∧ chain (nodes s) (head L) cs.

(** What [display] writes for a list with the names [xs]. *)
Definition shown (xs : list string) : list string :=
  match xs with
  | [] => ["The list is empty."]
  | _ :: _ => xs
  end.

(** The cells left when the first cell named [x] is taken out. *)
Fixpoint without_first (x : string) (cs : list cell) : list cell :=
  match cs with
  | [] => []
  | c :: cs' => if String.eqb c.2 x then cs' else c :: without_first x cs'
  end.

(** How many times the name [x] occurs in [xs]. *)
Definition occurrences (x : string) (xs : list string) : nat :=
  length (filter (λ y, y = x) xs).

(** ** The loop of [remove], seen from outside *)

(** The value of the variable [prev] after the loop of [remove] has walked
    over the cells [b], starting with [prev]. *)
Fixpoint prev_after (prev : option loc) (b : list cell) : option loc :=
  match b with
  | [] => prev
  | c :: b' => prev_after (Some c.1) b'
  end.

(** Lines 30-33, once [current.next] has been read. *)
Definition unlink (self : loc) (prev nx : option loc) : M unit :=
  match prev with
  | Some p => write_next p nx
  | None => write_head self nx
  end.

(** ** Programs and the structure of the store *)

(** A call of the program: [LinkedList()], or one of the three methods on
    the list object at [self]. *)
Inductive call : Type :=
| New
| Add (self : loc) (x : string)
| Remove (self : loc) (x : string)
| Display (self : loc).

Definition run_call (fuel : nat) (c : call) : M unit :=
  match c with
  | New => new_LinkedList ;; mret tt
  | Add self x => add fuel self x
  | Remove self x => remove fuel self x ;; mret tt
  | Display self => display fuel self
  end.

(** The stores a program can be in: it starts with no object and makes
    calls that finish. *)
Inductive reachable : store → Prop :=
| reach_empty : reachable empty_store
| reach_call s c fuel s' :
    reachable s → run_call fuel c s = Done tt s' → reachable s'.

(** What can hold a reference to a node: the field [head] of a list object
    or the field [next] of a node. *)
Inductive referrer : Type :=
| FromHead (self : loc)
| FromNext (p : loc).

(** A node is live when some list reaches it. *)
Definition live (s : store) (l : loc) : Prop :=
  ∃ self cs, is_list s self cs ∧ l ∈ cs.*1.

(** [refers s r l]: in [s], the live field [r] holds a reference to [l]. *)
Definition refers (s : store) (r : referrer) (l : loc) : Prop :=
  match r with
  | FromHead self => ∃ L, lists s !! self = Some L ∧ head L = Some l
  | FromNext p => live s p ∧ ∃ n, nodes s !! p = Some n ∧ next n = Some l
  end.

(** No node is reached by two lists. *)
Definition separated (s : store) : Prop :=
  ∀ s1 s2 cs1 cs2 l,
    is_list s s1 cs1 → is_list s s2 cs2 → s1 ≠ s2 →
    l ∈ cs1.*1 → l ∈ cs2.*1 → False.

(** The invariant in the form that the calls preserve. *)
Definition inv (s : store) : Prop :=
  (∀ self, self ∈ dom (lists s) → ∃ cs, is_list s self cs) ∧ separated s.

(** The invariant as the data model states it: from every [head] the walk
    along [next] ends and visits no node twice, no node is referred to from
    two places, and no node belongs to two lists.  References are counted
    over the objects a program can still reach: a node that [remove] has
    unlinked is garbage, although the model keeps it in the store. *)
Definition well_formed (s : store) : Prop :=
  (∀ self, self ∈ dom (lists s) → ∃ cs, is_list s self cs ∧ NoDup cs.*1) ∧
  (∀ l r1 r2, refers s r1 l → refers s r2 l → r1 = r2) ∧
  separated s.

(** Every method call on an existing list finishes when the fuel is at least
    the number of nodes of the store. *)
Definition responsive (s : store) : Prop :=
  ∀ self x fuel,
    self ∈ dom (lists s) → size (nodes s) ≤ fuel →
    (∃ s', add fuel self x s = Done tt s') ∧
    (∃ r s', remove fuel self x s = Done r s') ∧
    (∃ s', display fuel self s = Done tt s').

(** ** Sample stores *)

Definition store_of {A} (o : outcome A) : store :=
  match o with
  | Done _ s => s
  | _ => empty_store
  end.

(** The store after [LinkedList()] and one [add] per name of [xs], starting
    from nothing.  The list object is at address 1 and the nodes are at
    1, 2, ... in the order of [xs]. *)
Definition sample (xs : list string) : store :=
  store_of ((my_list ← new_LinkedList; add_all (length xs) my_list xs)
              empty_store).

(** The store after one more call, with fuel 4. *)
Definition after_call (c : call) (s : store) : store :=
  store_of (run_call 4 c s).

(** Checks [is_list] on a closed store by following the chain. *)
Ltac list_by_eval :=
  eexists; split; [reflexivity|]; unfold chain; simpl;
  repeat (split; [reflexivity|eexists; split; [reflexivity|]]); reflexivity.

(** Checks [reachable] on a store built with [after_call]. *)
Ltac reachable_by_eval :=
  repeat (lazymatch goal with
          | |- reachable (after_call ?c ?s) =>
              apply (reach_call s c 4 (after_call c s));
              [|vm_compute; reflexivity]
          end);
  apply reach_empty.

(** ** Further programs and notions *)

(** [remove(x)] called [n] times in a row on the same list; the result is
    the list of the values returned, first call first. *)
Fixpoint remove_times (fuel : nat) (self : loc) (x : string) (n : nat)
    : M (list bool) :=
  match n with
  | O => mret []
  | S n' =>
      r ← remove fuel self x;
      rs ← remove_times fuel self x n';
      mret (r :: rs)
  end.

(** The list object a call is made on, if any. *)
Definition target (c : call) : option loc :=
  match c with
  | New => None
  | Add self _ | Remove self _ | Display self => Some self
  end.

(** A set of nodes that the walk along [next] cannot leave: each of them
    has a [next], and it is in the set again. *)
Definition closed_under_next (h : gmap loc Node) (X : gset loc) : Prop :=
  ∀ l, l ∈ X → ∃ n l', h !! l = Some n ∧ next n = Some l' ∧ l' ∈ X.

(** A list of one node whose [next] has been set to the node itself, as by
    [my_list.head.next = my_list.head]. *)
Definition tied : store :=
  store_of (write_next 1%positive (Some 1%positive) (sample ["Ouroboros"])).

(** * Lemmas *)

(** ** Lemmas on segments and chains *)

Section Segments.
Implicit Types (h : gmap loc Node) (cs : list cell) (hd tl : option loc).

Lemma seg_app h cs1 cs2 hd tl :
  seg h hd (cs1 ++ cs2) tl ↔ ∃ mid, seg h hd cs1 mid ∧ seg h mid cs2 tl.
Proof.
  revert hd. induction cs1 as [|c cs1 IH]; intros hd; simpl.
  - split.
    + intros H. exists hd. done.
    + intros (mid & -> & H). done.
  - split.
    + intros (-> & nx & Hl & H). apply IH in H as (mid & H1 & H2).
      exists mid. split; [|done]. split; [done|]. by exists nx.
    + intros (mid & (-> & nx & Hl & H1) & H2). split; [done|].
      exists nx. split; [done|]. apply IH. by exists mid.
Qed.

(** A segment only depends on the nodes it visits. *)
Lemma seg_agree h h' cs hd tl :
  (∀ l, l ∈ cs.*1 → h' !! l = h !! l) →
  seg h hd cs tl → seg h' hd cs tl.
Proof.
  revert hd. induction cs as [|c cs IH]; intros hd Hag; simpl; [done|].
  intros (-> & nx & Hl & H). split; [done|]. exists nx. split.
  - rewrite Hag; [done|]. simpl. left.
  - apply IH; [|done]. intros l Hin. apply Hag. simpl. by right.
Qed.

(** Following [next] is deterministic. *)
Lemma seg_functional h cs1 cs2 hd :
  seg h hd cs1 None → seg h hd cs2 None → cs1 = cs2.
Proof.
  revert cs2 hd. induction cs1 as [|[l x] cs1 IH]; intros [|[l' x'] cs2] hd;
    simpl; try done.
  - intros -> (? & _). done.
  - intros (-> & _) ?. done.
  - intros (-> & nx & Hl & H1) (Heq & nx' & Hl' & H2).
    injection Heq as <-. rewrite Hl in Hl'. injection Hl' as <- <-.
    f_equal. by eapply IH.
Qed.

Lemma seg_dom h cs hd tl l :
  seg h hd cs tl → l ∈ cs.*1 → l ∈ dom h.
Proof.
  revert hd. induction cs as [|c cs IH]; intros hd; simpl.
  - intros _ Hin. by apply elem_of_nil in Hin.
  - intros (-> & nx & Hl & H) Hin. apply elem_of_cons in Hin as [->|Hin].
    + apply elem_of_dom. eauto.
    + by eapply IH.
Qed.

(** A chain never visits a node twice: the walk from a node that came
    back to itself would not end. *)
Lemma chain_NoDup h cs hd : chain h hd cs → NoDup cs.*1.
Proof.
  unfold chain. revert hd. induction cs as [|[l x] cs IH]; intros hd; simpl.
  - intros _. constructor.
  - intros (-> & nx & Hl & H). constructor; [|by eapply IH].
    intros Hin. apply list_elem_of_fmap in Hin as ([l' x'] & Heq & Hin).
    simpl in Heq. subst l'.
    apply list_elem_of_split in Hin as (u & v & ->).
    assert (Hwhole : seg h (Some l) ((l, x) :: u ++ (l, x') :: v) None).
    { simpl. split; [done|]. by exists nx. }
    apply seg_app in H as (mid & _ & H2).
    assert (mid = Some l) as -> by (by destruct H2).
    pose proof (seg_functional _ _ _ _ H2 Hwhole) as Heq.
    apply (f_equal length) in Heq. simpl in Heq.
    rewrite length_app in Heq. simpl in Heq. lia.
Qed.

End Segments.

(** ** Running the methods *)

Lemma bind_Done {A B} (m : M A) (k : A → M B) s a s' :
  m s = Done a s' → (m ≫= k) s = k a s'.
Proof. intros H. unfold mbind, M_bind. by rewrite H. Qed.

Lemma read_next_Done s l n :
  nodes s !! l = Some n → read_next l s = Done (next n) s.
Proof. intros H. unfold read_next. by rewrite H. Qed.

Lemma read_name_Done s l n :
  nodes s !! l = Some n → read_name l s = Done (name n) s.
Proof. intros H. unfold read_name. by rewrite H. Qed.

Lemma read_head_Done s self L :
  lists s !! self = Some L → read_head self s = Done (head L) s.
Proof. intros H. unfold read_head. by rewrite H. Qed.

Section Add.
Implicit Types (s : store) (cs a b : list cell) (fuel : nat)
  (x y : string) (self c p l : loc) (cur prev : option loc).

(** The loop of [add] stops at the last node of the chain. *)
Lemma add_loop_last s cs c lx x fuel :
  seg (nodes s) (Some c) (cs ++ [(lx, x)]) None →
  length cs < fuel →
  add_loop fuel c s = Done lx s.
Proof.
  revert c fuel. induction cs as [|[l y] cs IH]; intros c fuel; simpl.
  - intros (Hc & nx & Hl & ->) Hf. injection Hc as ->.
    destruct fuel as [|fuel]; [lia|]. simpl.
    by rewrite (bind_Done _ _ _ _ _ (read_next_Done _ _ _ Hl)).
  - intros (Hc & nx & Hl & H) Hf. injection Hc as ->.
    destruct fuel as [|fuel]; [lia|]. simpl.
    rewrite (bind_Done _ _ _ _ _ (read_next_Done _ _ _ Hl)). simpl.
    destruct nx as [c'|].
    + apply IH; [done|lia].
    + destruct cs; simpl in H; by destruct H.
Qed.

(** [add] on an empty list: the new node becomes the head. *)
Lemma add_run_empty s self x fuel :
  lists s !! self = Some (mkLinkedList None) →
  add fuel self x s =
    Done tt (mkStore (<[fresh (dom (nodes s)) := mkNode x None]> (nodes s))
                     (<[self := mkLinkedList (Some (fresh (dom (nodes s))))]>
                        (lists s))
                     (stdout s)).
Proof.
  intros Hself. unfold add, mbind, M_bind, new_Node, read_head, write_head.
  simpl. rewrite Hself. simpl. by rewrite Hself.
Qed.

(** [add] on a list whose last node is [p]: the field [next] of [p] is set
    to the new node. *)
Lemma add_run_nonempty s self cs p y x fuel :
  is_list s self (cs ++ [(p, y)]) →
  length cs < fuel →
  add fuel self x s =
    Done tt (mkStore (<[p := mkNode y (Some (fresh (dom (nodes s))))]>
                        (<[fresh (dom (nodes s)) := mkNode x None]> (nodes s)))
                     (lists s) (stdout s)).
Proof.
  intros (L & Hself & Hch) Hf.
  set (l := fresh (dom (nodes s))).
  assert (Hfresh : l ∉ dom (nodes s)) by apply is_fresh.
  assert (Hp : p ∈ dom (nodes s)).
  { eapply seg_dom; [exact Hch|]. rewrite fmap_app. simpl.
    apply elem_of_app. right. left. }
  assert (Hne : l ≠ p) by (intros ->; done).
  set (s1 := mkStore (<[l := mkNode x None]> (nodes s)) (lists s) (stdout s)).
  assert (Hch1 : seg (nodes s1) (head L) (cs ++ [(p, y)]) None).
  { eapply seg_agree; [|exact Hch]. intros l' Hin. simpl.
    apply lookup_insert_ne. intros <-. apply Hfresh.
    eapply seg_dom; [exact Hch|done]. }
  unfold add. unfold mbind at 1, M_bind at 1. unfold new_Node. fold l. fold s1.
  rewrite (bind_Done _ _ s1 (head L) s1);
    [|by apply read_head_Done].
  destruct (head L) as [c|] eqn:Hhd.
  - rewrite (bind_Done _ _ s1 p s1); [|by eapply add_loop_last].
    unfold write_next. simpl.
    apply seg_app in Hch1 as (mid & _ & (_ & nx & Hl & ->)). simpl in Hl.
    by rewrite Hl.
  - destruct cs; simpl in Hch1; by destruct Hch1.
Qed.

End Add.

Section Remove.
Implicit Types (s : store) (cs a b : list cell) (fuel : nat)
  (x y : string) (self c p l : loc) (cur prev : option loc).

Lemma prev_after_snoc prev b (k : cell) :
  prev_after prev (b ++ [k]) = Some k.1.
Proof. revert prev. induction b as [|c' b IH]; intros prev; simpl; auto. Qed.

(** No node of the rest of the chain has the name: the loop runs to the
    end and changes nothing. *)
Lemma remove_loop_absent s self x b cur prev fuel :
  seg (nodes s) cur b None →
  x ∉ b.*2 →
  length b ≤ fuel →
  remove_loop fuel self x cur prev s = Done false s.
Proof.
  revert cur prev fuel. induction b as [|[l y] b IH]; intros cur prev fuel; simpl.
  - intros -> _ _. by destruct fuel.
  - intros (-> & nx & Hl & H) Hx Hf. destruct fuel as [|fuel]; [lia|]. simpl.
    rewrite (bind_Done _ _ _ _ _ (read_name_Done _ _ _ Hl)). simpl.
    destruct (String.eqb_spec y x) as [->|Hne].
    + exfalso. apply Hx. left.
    + rewrite (bind_Done _ _ _ _ _ (read_next_Done _ _ _ Hl)). simpl.
      apply IH; [done| |lia]. intros Hin. apply Hx. by right.
Qed.

(** The first node with the name is [c], after the cells [b1]: the loop
    stops there and unlinks [c]. *)
Lemma remove_loop_found s self x b1 c nxc cur prev fuel :
  seg (nodes s) cur b1 (Some c) →
  nodes s !! c = Some (mkNode x nxc) →
  x ∉ b1.*2 →
  length b1 < fuel →
  remove_loop fuel self x cur prev s =
    (unlink self (prev_after prev b1) nxc ;; mret true) s.
Proof.
  revert cur prev fuel. induction b1 as [|[l y] b1 IH]; intros cur prev fuel; simpl.
  - intros -> Hc _ Hf. destruct fuel as [|fuel]; [lia|]. simpl.
    rewrite (bind_Done _ _ _ _ _ (read_name_Done _ _ _ Hc)). simpl.
    rewrite String.eqb_refl.
    unfold unlink. destruct prev as [p|].
    + unfold mbind at 1 3, M_bind at 1 3.
      by rewrite (bind_Done _ _ _ _ _ (read_next_Done _ _ _ Hc)).
    + unfold mbind at 1 3, M_bind at 1 3.
      by rewrite (bind_Done _ _ _ _ _ (read_next_Done _ _ _ Hc)).
  - intros (-> & nx & Hl & H) Hc Hx Hf. destruct fuel as [|fuel]; [lia|]. simpl.
    rewrite (bind_Done _ _ _ _ _ (read_name_Done _ _ _ Hl)). simpl.
    destruct (String.eqb_spec y x) as [->|Hne].
    + exfalso. apply Hx. left.
    + rewrite (bind_Done _ _ _ _ _ (read_next_Done _ _ _ Hl)). simpl.
      apply IH; [done|done| |lia]. intros Hin. apply Hx. by right.
Qed.

(** [remove] of a name that labels the head node. *)
Lemma remove_run_head s self c x b nxc fuel :
  is_list s self ((c, x) :: b) →
  nodes s !! c = Some (mkNode x nxc) →
  0 < fuel →
  remove fuel self x s =
    Done true (mkStore (nodes s) (<[self := mkLinkedList nxc]> (lists s))
                       (stdout s)).
Proof.
  intros (L & Hself & Hch) Hc Hf. unfold remove.
  rewrite (bind_Done _ _ _ _ _ (read_head_Done _ _ _ Hself)).
  destruct Hch as (Hhd & _). rewrite Hhd.
  rewrite (remove_loop_found s self x [] c nxc); simpl; try done.
  - unfold mbind, M_bind, write_head. by rewrite Hself.
  - apply not_elem_of_nil.
Qed.

(** [remove] of a name whose first node [c] comes after the node [p]. *)
Lemma remove_run_inner s self a p y c x b nxc fuel :
  is_list s self (a ++ (p, y) :: (c, x) :: b) →
  nodes s !! c = Some (mkNode x nxc) →
  x ∉ (a ++ [(p, y)]).*2 →
  S (length a) < fuel →
  remove fuel self x s =
    Done true (mkStore (<[p := mkNode y nxc]> (nodes s)) (lists s) (stdout s)).
Proof.
  intros (L & Hself & Hch) Hc Hx Hf. unfold remove.
  rewrite (bind_Done _ _ _ _ _ (read_head_Done _ _ _ Hself)).
  change (a ++ (p, y) :: (c, x) :: b) with (a ++ [(p, y)] ++ (c, x) :: b) in Hch.
  rewrite app_assoc in Hch.
  apply seg_app in Hch as (mid & Hseg & (-> & _)). simpl in Hseg.
  rewrite (remove_loop_found s self x (a ++ [(p, y)]) c nxc); try done.
  - rewrite prev_after_snoc. simpl.
    apply seg_app in Hseg as (mid & _ & (_ & nx & Hp & _)). simpl in Hp.
    unfold mbind, M_bind, write_next. by rewrite Hp.
  - rewrite length_app. simpl. lia.
Qed.

End Remove.

Section Display.
Implicit Types (s : store) (cs a b : list cell) (fuel : nat)
  (x y : string) (self c p l : loc) (cur prev : option loc).

Lemma display_loop_run cs : ∀ s cur fuel,
  seg (nodes s) cur cs None →
  length cs ≤ fuel →
  display_loop fuel cur s =
    Done tt (mkStore (nodes s) (lists s) (stdout s ++ cs.*2)).
Proof.
  induction cs as [|[l y] cs IH]; intros s cur fuel; simpl.
  - intros -> _. rewrite app_nil_r. destruct s. by destruct fuel.
  - intros (-> & nx & Hl & H) Hf. destruct fuel as [|fuel]; [lia|]. simpl.
    rewrite (bind_Done _ _ _ _ _ (read_name_Done _ _ _ Hl)). simpl.
    unfold mbind at 1, M_bind at 1. unfold print at 1.
    set (s1 := mkStore _ _ _).
    assert (Hl1 : nodes s1 !! l = Some (mkNode y nx)) by done.
    rewrite (bind_Done _ _ _ _ _ (read_next_Done _ _ _ Hl1)). simpl.
    rewrite IH; [|done|lia]. simpl. by rewrite <- app_assoc.
Qed.

Lemma display_run s self cs fuel :
  is_list s self cs →
  length cs ≤ fuel →
  display fuel self s =
    Done tt (mkStore (nodes s) (lists s) (stdout s ++ shown cs.*2)).
Proof.
  intros (L & Hself & Hch) Hf. unfold display.
  rewrite (bind_Done _ _ _ _ _ (read_head_Done _ _ _ Hself)).
  destruct (head L) as [c|] eqn:Hhd.
  - rewrite (display_loop_run cs); [|done..].
    destruct cs as [|c' cs]; simpl in *; [by inversion Hch|done].
  - destruct cs as [|c' cs]; [reflexivity|]. by destruct Hch.
Qed.

End Display.

(** ** What the methods do to a well-formed list *)

Section Specs.
Implicit Types (s : store) (cs a b : list cell) (fuel : nat)
  (x y : string) (self c p l : loc).

Lemma chain_cons_inv h hd (k : cell) cs :
  chain h hd (k :: cs) →
  hd = Some k.1 ∧ ∃ nx, h !! k.1 = Some (mkNode k.2 nx) ∧ chain h nx cs.
Proof. done. Qed.

Lemma is_list_functional s self cs1 cs2 :
  is_list s self cs1 → is_list s self cs2 → cs1 = cs2.
Proof.
  intros (L1 & H1 & Hc1) (L2 & H2 & Hc2). rewrite H1 in H2.
  injection H2 as <-. by eapply seg_functional.
Qed.

Lemma is_list_NoDup s self cs : is_list s self cs → NoDup cs.*1.
Proof. intros (L & _ & Hc). by eapply chain_NoDup. Qed.

Lemma is_list_dom s self cs l : is_list s self cs → l ∈ cs.*1 → l ∈ dom (nodes s).
Proof. intros (L & _ & Hc) Hin. by eapply seg_dom. Qed.

(** A list object keeps its cells when neither its [head] nor its nodes
    are written. *)
Lemma is_list_agree s s' self cs :
  lists s' !! self = lists s !! self →
  (∀ l, l ∈ cs.*1 → nodes s' !! l = nodes s !! l) →
  is_list s self cs → is_list s' self cs.
Proof.
  intros Hl Hn (L & Hself & Hc). exists L. split; [by rewrite Hl|].
  by eapply seg_agree.
Qed.

Lemma new_LinkedList_spec s :
  ∃ s', new_LinkedList s = Done (fresh (dom (lists s))) s' ∧
        is_list s' (fresh (dom (lists s))) [] ∧
        nodes s' = nodes s ∧ stdout s' = stdout s ∧
        lists s' = <[fresh (dom (lists s)) := mkLinkedList None]> (lists s).
Proof.
  eexists. split; [reflexivity|]. simpl. split; [|done].
  exists (mkLinkedList None). split; [|done]. simpl. apply lookup_insert_eq.
Qed.

Lemma add_spec s self cs x fuel :
  is_list s self cs →
  length cs ≤ fuel →
  ∃ s', add fuel self x s = Done tt s' ∧
        is_list s' self (cs ++ [(fresh (dom (nodes s)), x)]) ∧
        stdout s' = stdout s ∧
        dom (lists s') = dom (lists s) ∧
        (∀ o, o ≠ self → lists s' !! o = lists s !! o) ∧
        (∀ l, l ∈ dom (nodes s) → l ∉ cs.*1 → nodes s' !! l = nodes s !! l) ∧
        (∀ l n, nodes s !! l = Some n →
                ∃ n', nodes s' !! l = Some n' ∧ name n' = name n).
Proof.
  intros Hlist Hf.
  set (l := fresh (dom (nodes s))).
  assert (Hfresh : l ∉ dom (nodes s)) by apply is_fresh.
  destruct cs as [|k cs0 _] using rev_ind.
  - destruct Hlist as ([hd] & Hself & Hc). unfold chain in Hc. simpl in Hc.
    subst hd.
    eexists. split; [by apply add_run_empty|]. fold l. simpl.
    split; [|split; [done|split; [|split; [|split]]]].
    + eexists. split; [apply lookup_insert_eq|]. simpl. split; [done|].
      eexists. split; [apply lookup_insert_eq|done].
    + rewrite dom_insert_L. apply subseteq_union_1_L, singleton_subseteq_l.
      by eapply elem_of_dom_2.
    + intros o Ho. by apply lookup_insert_ne.
    + intros l' Hl' _. apply lookup_insert_ne. by intros <-.
    + intros l' n Hl'. exists n. split; [|done].
      rewrite lookup_insert_ne; [done|]. intros <-.
      apply Hfresh. by eapply elem_of_dom_2.
  - destruct k as [p y].
    pose proof (is_list_NoDup _ _ _ Hlist) as Hnd.
    rewrite fmap_app in Hnd. apply NoDup_app in Hnd as (_ & Hnd & _).
    assert (Hp : p ∈ dom (nodes s)).
    { eapply is_list_dom; [exact Hlist|]. rewrite fmap_app. set_solver. }
    assert (Hne : l ≠ p) by (by intros <-).
    rewrite length_app in Hf. simpl in Hf.
    eexists. split; [apply (add_run_nonempty _ _ _ _ _ _ _ Hlist); lia|].
    fold l. simpl. destruct Hlist as (L & Hself & Hc).
    apply seg_app in Hc as (mid & Hseg & (-> & nx & Hpn & ->)). simpl in Hpn.
    split; [|split; [done|split; [done|split; [done|split]]]].
    + exists L. split; [done|]. simpl. unfold chain.
      rewrite <- app_assoc. apply seg_app. exists (Some p). split.
      * eapply seg_agree; [|exact Hseg]. intros l' Hin.
        rewrite !lookup_insert_ne; [done| |].
        -- intros <-. apply Hfresh. by eapply seg_dom.
        -- intros <-. eapply Hnd; [exact Hin|]. simpl. left.
      * simpl. split; [done|]. eexists. split; [apply lookup_insert_eq|].
        split; [done|]. eexists. split; [|done].
        rewrite lookup_insert_ne; [|done]. apply lookup_insert_eq.
    + intros l' Hl' Hnot. rewrite !lookup_insert_ne; [done| |].
      * by intros <-.
      * intros <-. apply Hnot. rewrite fmap_app. set_solver.
    + intros l' n Hl'. destruct (decide (l' = p)) as [->|Hlp].
      * rewrite Hpn in Hl'. injection Hl' as <-. eexists.
        split; [apply lookup_insert_eq|done].
      * exists n. split; [|done]. rewrite !lookup_insert_ne; [done| |done].
        intros <-. apply Hfresh. by eapply elem_of_dom_2.
Qed.

Lemma remove_spec_absent s self cs x fuel :
  is_list s self cs →
  x ∉ cs.*2 →
  length cs ≤ fuel →
  remove fuel self x s = Done false s.
Proof.
  intros (L & Hself & Hc) Hx Hf. unfold remove.
  rewrite (bind_Done _ _ _ _ _ (read_head_Done _ _ _ Hself)).
  by eapply remove_loop_absent.
Qed.

Lemma remove_spec_present s self a c x b fuel :
  is_list s self (a ++ (c, x) :: b) →
  x ∉ a.*2 →
  length a < fuel →
  ∃ s', remove fuel self x s = Done true s' ∧
        is_list s' self (a ++ b) ∧
        stdout s' = stdout s ∧
        dom (lists s') = dom (lists s) ∧
        dom (nodes s') = dom (nodes s) ∧
        (∀ o, o ≠ self → lists s' !! o = lists s !! o) ∧
        (∀ l, l ∉ a.*1 → nodes s' !! l = nodes s !! l) ∧
        (∀ l n, nodes s !! l = Some n →
                ∃ n', nodes s' !! l = Some n' ∧ name n' = name n).
Proof.
  intros Hlist Hx Hf.
  pose proof (is_list_NoDup _ _ _ Hlist) as Hnd.
  destruct a as [|k a0 _] using rev_ind.
  - simpl in *. destruct (Hlist) as (L & Hself & Hc).
    apply chain_cons_inv in Hc as (Hhd & nxc & Hcn & Hb). simpl in *.
    eexists. split; [by eapply remove_run_head|]. simpl.
    split; [|split; [done|split; [|split; [done|split; [|split]]]]].
    + eexists. split; [apply lookup_insert_eq|done].
    + rewrite dom_insert_L. apply subseteq_union_1_L, singleton_subseteq_l.
      by eapply elem_of_dom_2.
    + intros o Ho. by apply lookup_insert_ne.
    + done.
    + intros l n Hl. by exists n.
  - destruct k as [p y]. rewrite <- app_assoc in Hlist, Hnd. simpl in Hlist, Hnd.
    destruct (Hlist) as (L & Hself & Hc).
    apply seg_app in Hc as (mid & Hseg & Hrest).
    destruct Hrest as (-> & nxp & Hpn & Hrest). simpl in Hpn.
    apply chain_cons_inv in Hrest as (-> & nxc & Hcn & Hb). simpl in Hcn.
    rewrite length_app in Hf. simpl in Hf.
    rewrite fmap_app in Hnd. simpl in Hnd.
    apply NoDup_app in Hnd as (_ & Hnd1 & Hnd2).
    apply NoDup_cons in Hnd2 as (Hp2 & _).
    eexists. split; [eapply remove_run_inner; eauto; lia|]. simpl.
    split; [|split; [done|split; [done|split; [|split; [done|split]]]]].
    + exists L. split; [done|]. simpl. unfold chain.
      rewrite <- app_assoc. apply seg_app. exists (Some p). split.
      * eapply seg_agree; [|exact Hseg]. intros l' Hin.
        rewrite lookup_insert_ne; [done|]. intros <-.
        eapply Hnd1; [exact Hin|]. left.
      * simpl. split; [done|]. eexists. split; [apply lookup_insert_eq|].
        eapply seg_agree; [|exact Hb]. intros l' Hin.
        rewrite lookup_insert_ne; [done|]. intros <-.
        apply Hp2. by right.
    + rewrite dom_insert_L. apply subseteq_union_1_L, singleton_subseteq_l.
      by eapply elem_of_dom_2.
    + intros l Hl. rewrite lookup_insert_ne; [done|]. intros <-.
      apply Hl. rewrite fmap_app. set_solver.
    + intros l n Hl. destruct (decide (l = p)) as [->|Hlp].
      * rewrite Hpn in Hl. injection Hl as <-. eexists.
        split; [apply lookup_insert_eq|done].
      * exists n. split; [|done]. by rewrite lookup_insert_ne.
Qed.

End Specs.

(** ** Lists of names *)

Section Names.
Implicit Types (cs a b d : list cell) (x y : string) (xs : list string).

Lemma occurrences_cons x y xs :
  occurrences x (y :: xs) =
    (if decide (y = x) then 1 else 0) + occurrences x xs.
Proof.
  unfold occurrences. destruct (decide (y = x)) as [Heq|Hne].
  - by rewrite filter_cons_True.
  - by rewrite filter_cons_False.
Qed.

Lemma occurrences_zero x xs : occurrences x xs = 0 → x ∉ xs.
Proof.
  induction xs as [|y xs IH]; [intros _; apply not_elem_of_nil|].
  rewrite occurrences_cons. destruct (decide (y = x)) as [->|Hne]; [done|].
  simpl. intros H. apply not_elem_of_cons. split; [done|]. by apply IH.
Qed.

Lemma not_in_occurrences x xs : x ∉ xs → occurrences x xs = 0.
Proof.
  induction xs as [|y xs IH]; [done|].
  intros [Hne Hin]%not_elem_of_cons. rewrite occurrences_cons.
  destruct (decide (y = x)) as [->|_]; [done|]. simpl. by apply IH.
Qed.

(** The first cell with a given name splits the list. *)
Lemma first_occurrence x cs :
  0 < occurrences x cs.*2 →
  ∃ a c b, cs = a ++ (c, x) :: b ∧ (x ∉ a.*2) ∧
           occurrences x cs.*2 = S (occurrences x b.*2).
Proof.
  induction cs as [|[l y] cs IH]; simpl.
  - unfold occurrences. simpl. lia.
  - rewrite occurrences_cons. destruct (decide (y = x)) as [->|Hne].
    + intros _. exists [], l, cs. split; [done|]. split; [|done].
      apply not_elem_of_nil.
    + simpl. intros H. destruct (IH H) as (a & c & b & -> & Ha & Hocc).
      exists ((l, y) :: a), c, b. split; [done|]. split; [|done].
      simpl. apply not_elem_of_cons. split; [done|done].
Qed.

Lemma filter_other_names x xs : x ∉ xs → filter (λ y, y ≠ x) xs = xs.
Proof.
  induction xs as [|y xs IH]; [done|].
  intros [Hne Hin]%not_elem_of_cons.
  rewrite filter_cons_True; [|done]. by rewrite IH.
Qed.

Lemma filter_other_cells x cs :
  x ∉ cs.*2 → filter (λ k : cell, k.2 ≠ x) cs = cs.
Proof.
  induction cs as [|[l y] cs IH]; [done|]. simpl.
  intros [Hne Hin]%not_elem_of_cons.
  rewrite filter_cons_True; [|simpl; done]. by rewrite IH.
Qed.

Lemma filter_single_name x xs1 xs2 :
  x ∉ xs1 → x ∉ xs2 → filter (λ y, y ≠ x) (xs1 ++ x :: xs2) = xs1 ++ xs2.
Proof.
  intros H1 H2. rewrite filter_app, filter_cons_False by (intros H; by apply H).
  by rewrite !filter_other_names.
Qed.

Lemma without_first_at x a c b :
  x ∉ a.*2 → without_first x (a ++ (c, x) :: b) = a ++ b.
Proof.
  induction a as [|[l y] a IH]; simpl.
  - intros _. by rewrite String.eqb_refl.
  - intros [Hne Hin]%not_elem_of_cons.
    destruct (String.eqb_spec y x) as [->|_]; [done|]. by rewrite IH.
Qed.

End Names.

Section Fuel.
Implicit Types (s : store) (fuel : nat) (x : string) (self c : loc)
  (cur prev : option loc).

Lemma bind_inv {A B} (m : M A) (k : A → M B) s r s' :
  (m ≫= k) s = Done r s' → ∃ a s1, m s = Done a s1 ∧ k a s1 = Done r s'.
Proof.
  unfold mbind, M_bind. destruct (m s) as [a s1| |]; [|done..].
  intros H. by exists a, s1.
Qed.

(** More fuel does not change the result of a loop that finished. *)
Lemma add_loop_mono fuel : ∀ fuel' c s r s',
  add_loop fuel c s = Done r s' → fuel ≤ fuel' →
  add_loop fuel' c s = Done r s'.
Proof.
  induction fuel as [|fuel IH]; intros fuel' c s r s'; simpl; [done|].
  intros (nx & s1 & Hrd & Hk)%bind_inv Hf.
  destruct fuel' as [|fuel']; [lia|]. simpl.
  rewrite (bind_Done _ _ _ _ _ Hrd). destruct nx as [c'|]; [|done].
  apply IH; [done|lia].
Qed.

Lemma remove_loop_mono fuel : ∀ fuel' self x cur prev s r s',
  remove_loop fuel self x cur prev s = Done r s' → fuel ≤ fuel' →
  remove_loop fuel' self x cur prev s = Done r s'.
Proof.
  induction fuel as [|fuel IH]; intros fuel' self x cur prev s r s'; simpl.
  - destruct cur; [done|]. intros H _. by destruct fuel'.
  - destruct cur as [c|]; [|intros H _; by destruct fuel'].
    intros (nm & s1 & Hrd & Hk)%bind_inv Hf.
    destruct fuel' as [|fuel']; [lia|]. simpl.
    rewrite (bind_Done _ _ _ _ _ Hrd). destruct (String.eqb nm x); [done|].
    apply bind_inv in Hk as (nx & s2 & Hrd2 & Hk).
    rewrite (bind_Done _ _ _ _ _ Hrd2). apply IH; [done|lia].
Qed.

Lemma display_loop_mono fuel : ∀ fuel' cur s r s',
  display_loop fuel cur s = Done r s' → fuel ≤ fuel' →
  display_loop fuel' cur s = Done r s'.
Proof.
  induction fuel as [|fuel IH]; intros fuel' cur s r s'; simpl.
  - destruct cur; [done|]. intros H _. by destruct fuel'.
  - destruct cur as [c|]; [|intros H _; by destruct fuel'].
    intros (nm & s1 & Hrd & Hk)%bind_inv Hf.
    destruct fuel' as [|fuel']; [lia|]. simpl.
    rewrite (bind_Done _ _ _ _ _ Hrd).
    apply bind_inv in Hk as (u & s2 & Hpr & Hk).
    rewrite (bind_Done _ _ _ _ _ Hpr).
    apply bind_inv in Hk as (nx & s3 & Hrd3 & Hk).
    rewrite (bind_Done _ _ _ _ _ Hrd3). apply IH; [done|lia].
Qed.

Lemma add_mono fuel fuel' self x s r s' :
  add fuel self x s = Done r s' → fuel ≤ fuel' →
  add fuel' self x s = Done r s'.
Proof.
  unfold add. intros (nn & s1 & Hnew & Hk)%bind_inv Hf.
  rewrite (bind_Done _ _ _ _ _ Hnew).
  apply bind_inv in Hk as (h & s2 & Hrd & Hk).
  rewrite (bind_Done _ _ _ _ _ Hrd). destruct h as [c|]; [|done].
  apply bind_inv in Hk as (lst & s3 & Hloop & Hk).
  by rewrite (bind_Done _ _ _ _ _ (add_loop_mono _ _ _ _ _ _ Hloop Hf)).
Qed.

Lemma remove_mono fuel fuel' self x s r s' :
  remove fuel self x s = Done r s' → fuel ≤ fuel' →
  remove fuel' self x s = Done r s'.
Proof.
  unfold remove. intros (h & s1 & Hrd & Hk)%bind_inv Hf.
  rewrite (bind_Done _ _ _ _ _ Hrd). by eapply remove_loop_mono.
Qed.

Lemma display_mono fuel fuel' self s r s' :
  display fuel self s = Done r s' → fuel ≤ fuel' →
  display fuel' self s = Done r s'.
Proof.
  unfold display. intros (h & s1 & Hrd & Hk)%bind_inv Hf.
  rewrite (bind_Done _ _ _ _ _ Hrd). destruct h; [|done].
  by eapply display_loop_mono.
Qed.

(** A method that finished was called on an existing list object. *)
Lemma read_head_inv self s h s1 :
  read_head self s = Done h s1 → s1 = s ∧ self ∈ dom (lists s).
Proof.
  unfold read_head. destruct (lists s !! self) as [L|] eqn:HL; [|done].
  intros [= <- <-]. split; [done|]. by eapply elem_of_dom_2.
Qed.

Lemma add_self fuel self x s r s' :
  add fuel self x s = Done r s' → self ∈ dom (lists s).
Proof.
  unfold add. intros (nn & s1 & Hnew & Hk)%bind_inv.
  apply bind_inv in Hk as (h & s2 & Hrd & _).
  apply read_head_inv in Hrd as (_ & Hin).
  unfold new_Node in Hnew. injection Hnew as _ <-. done.
Qed.

Lemma remove_self fuel self x s r s' :
  remove fuel self x s = Done r s' → self ∈ dom (lists s).
Proof.
  unfold remove. intros (h & s1 & Hrd & _)%bind_inv.
  by apply read_head_inv in Hrd as (_ & Hin).
Qed.

Lemma display_self fuel self s r s' :
  display fuel self s = Done r s' → self ∈ dom (lists s).
Proof.
  unfold display. intros (h & s1 & Hrd & _)%bind_inv.
  by apply read_head_inv in Hrd as (_ & Hin).
Qed.

End Fuel.

Section Invariant.
Implicit Types (s : store) (cs a b : list cell) (fuel : nat)
  (x y : string) (self c p l o : loc).

(** A call on the list at [self] that writes only that list object and
    nodes of that list (or new ones), and leaves the list holding some of
    its old nodes and new ones, preserves the invariant. *)
Lemma inv_update s s' self cs cs' :
  inv s →
  is_list s self cs →
  is_list s' self cs' →
  dom (lists s') = dom (lists s) →
  (∀ o, o ≠ self → lists s' !! o = lists s !! o) →
  (∀ l, l ∈ dom (nodes s) → l ∉ cs.*1 → nodes s' !! l = nodes s !! l) →
  (∀ l, l ∈ cs'.*1 → l ∈ cs.*1 ∨ l ∉ dom (nodes s)) →
  inv s'.
Proof.
  intros [Hall Hsep] Hcs Hcs' Hdom Hlists Hnodes Hsub.
  assert (Hkeep : ∀ o cs_o, o ≠ self → is_list s o cs_o → is_list s' o cs_o).
  { intros o cs_o Ho Hlo. eapply is_list_agree; [by apply Hlists| |exact Hlo].
    intros l Hin. apply Hnodes; [by eapply is_list_dom|].
    intros Hin'. by eapply (Hsep o self cs_o cs l). }
  assert (Hback : ∀ o cs_o, o ≠ self → is_list s' o cs_o → is_list s o cs_o).
  { intros o cs_o Ho Hlo.
    assert (Hin : o ∈ dom (lists s)).
    { rewrite <- Hdom. destruct Hlo as (L & HL & _). by eapply elem_of_dom_2. }
    destruct (Hall o Hin) as (cs_o' & Hlo').
    by rewrite (is_list_functional _ _ _ _ Hlo (Hkeep o cs_o' Ho Hlo')). }
  assert (Hclash : ∀ o cs_o l, o ≠ self → is_list s' o cs_o →
                               l ∈ cs'.*1 → l ∈ cs_o.*1 → False).
  { intros o cs_o l Ho Hlo Hl' Hlo'. apply Hback in Hlo; [|done].
    destruct (Hsub l Hl') as [Hold|Hnew].
    - by eapply (Hsep self o cs cs_o l).
    - apply Hnew. by eapply is_list_dom. }
  split.
  - intros o Hin. destruct (decide (o = self)) as [->|Ho]; [by exists cs'|].
    rewrite Hdom in Hin. destruct (Hall o Hin) as (cs_o & Hlo).
    exists cs_o. by apply Hkeep.
  - intros s1 s2 cs1 cs2 l H1 H2 Hne Hl1 Hl2.
    destruct (decide (s1 = self)) as [->|Hs1];
      destruct (decide (s2 = self)) as [->|Hs2]; [done| | |].
    + rewrite (is_list_functional _ _ _ _ H1 Hcs') in Hl1.
      by eapply (Hclash s2 cs2 l).
    + rewrite (is_list_functional _ _ _ _ H2 Hcs') in Hl2.
      by eapply (Hclash s1 cs1 l).
    + apply Hback in H1; [|done]. apply Hback in H2; [|done].
      by eapply (Hsep s1 s2 cs1 cs2 l).
Qed.

Lemma inv_empty : inv empty_store.
Proof.
  split.
  - intros self Hin. simpl in Hin. by rewrite dom_empty_L in Hin.
  - intros s1 s2 cs1 cs2 l (L & HL & _). simpl in HL.
    by rewrite lookup_empty in HL.
Qed.

Lemma inv_new s r s' : inv s → new_LinkedList s = Done r s' → inv s'.
Proof.
  intros [Hall Hsep] Hnew.
  destruct (new_LinkedList_spec s) as (s0 & Hrun & Hl0 & Hn & _ & Hlists).
  rewrite Hnew in Hrun. injection Hrun as -> <-.
  set (l0 := fresh (dom (lists s))) in *.
  assert (Hfresh : l0 ∉ dom (lists s)) by apply is_fresh.
  assert (Hback : ∀ o cs_o, o ≠ l0 → is_list s' o cs_o → is_list s o cs_o).
  { intros o cs_o Ho Hlo. eapply is_list_agree; [| |exact Hlo].
    - rewrite Hlists. by rewrite lookup_insert_ne.
    - intros l _. by rewrite Hn. }
  split.
  - intros o Hin. destruct (decide (o = l0)) as [->|Ho]; [by exists []|].
    rewrite Hlists, dom_insert_L in Hin.
    apply elem_of_union in Hin as [Hin|Hin];
      [by apply elem_of_singleton in Hin|].
    destruct (Hall o Hin) as (cs_o & Hlo). exists cs_o.
    eapply is_list_agree; [| |exact Hlo].
    + rewrite Hlists. by rewrite lookup_insert_ne.
    + intros l _. by rewrite Hn.
  - intros s1 s2 cs1 cs2 l H1 H2 Hne Hl1 Hl2.
    destruct (decide (s1 = l0)) as [->|Hs1].
    { rewrite (is_list_functional _ _ _ _ H1 Hl0) in Hl1.
      by apply elem_of_nil in Hl1. }
    destruct (decide (s2 = l0)) as [->|Hs2].
    { rewrite (is_list_functional _ _ _ _ H2 Hl0) in Hl2.
      by apply elem_of_nil in Hl2. }
    apply Hback in H1; [|done]. apply Hback in H2; [|done].
    by eapply (Hsep s1 s2 cs1 cs2 l).
Qed.

Lemma inv_add s fuel self x r s' :
  inv s → add fuel self x s = Done r s' → inv s'.
Proof.
  intros Hinv Hadd. destruct (Hinv) as [Hall _].
  destruct (Hall self (add_self _ _ _ _ _ _ Hadd)) as (cs & Hcs).
  destruct (add_spec s self cs x (fuel `max` length cs) Hcs)
    as (s1 & Hrun & Hl1 & _ & Hdom & Hlists & Hnodes & _); [lia|].
  rewrite (add_mono _ (fuel `max` length cs) _ _ _ _ _ Hadd) in Hrun; [|lia].
  injection Hrun as _ <-.
  eapply inv_update; eauto.
  intros l Hin. rewrite fmap_app in Hin. apply elem_of_app in Hin as [Hin|Hin].
  - by left.
  - right. simpl in Hin. apply list_elem_of_singleton in Hin as ->.
    apply is_fresh.
Qed.

Lemma inv_remove s fuel self x r s' :
  inv s → remove fuel self x s = Done r s' → inv s'.
Proof.
  intros Hinv Hrem. destruct (Hinv) as [Hall _].
  destruct (Hall self (remove_self _ _ _ _ _ _ Hrem)) as (cs & Hcs).
  apply (remove_mono _ (fuel `max` length cs)) in Hrem; [|lia].
  destruct (decide (0 < occurrences x cs.*2)) as [Hocc|Hocc].
  - destruct (first_occurrence x cs Hocc) as (a & c & b & -> & Ha & _).
    destruct (remove_spec_present s self a c x b (fuel `max` length (a ++ (c, x) :: b))
                Hcs Ha)
      as (s1 & Hrun & Hl1 & _ & Hdom & _ & Hlists & Hnodes & _).
    { rewrite length_app. simpl. lia. }
    rewrite Hrem in Hrun. injection Hrun as _ <-.
    eapply inv_update; eauto.
    + intros l _ Hnot. apply Hnodes. intros Hin. apply Hnot.
      rewrite fmap_app. apply elem_of_app. by left.
    + intros l Hin. left. rewrite fmap_app in *. simpl.
      apply elem_of_app in Hin as [Hin|Hin]; apply elem_of_app; [by left|].
      right. by right.
  - assert (Hx : x ∉ cs.*2) by (apply occurrences_zero; lia).
    rewrite (remove_spec_absent s self cs x _ Hcs Hx) in Hrem; [|lia].
    by injection Hrem as _ <-.
Qed.

Lemma inv_display s fuel self r s' :
  inv s → display fuel self s = Done r s' → inv s'.
Proof.
  intros Hinv Hdis. destruct (Hinv) as [Hall _].
  destruct (Hall self (display_self _ _ _ _ _ Hdis)) as (cs & Hcs).
  apply (display_mono _ (fuel `max` length cs)) in Hdis; [|lia].
  rewrite (display_run s self cs _ Hcs) in Hdis; [|lia].
  injection Hdis as _ <-.
  eapply (inv_update s _ self cs cs); eauto.
Qed.

Lemma reachable_inv s : reachable s → inv s.
Proof.
  induction 1 as [|s c fuel s' _ IH Hrun]; [apply inv_empty|].
  destruct c as [|self x|self x|self]; simpl in Hrun.
  - apply bind_inv in Hrun as (r & s1 & Hnew & Hret).
    injection Hret as <-. by eapply inv_new.
  - by eapply inv_add.
  - apply bind_inv in Hrun as (r & s1 & Hrem & Hret).
    injection Hret as <-. by eapply inv_remove.
  - by eapply inv_display.
Qed.

(** The head of a list is its first cell. *)
Lemma head_first s self cs L l :
  is_list s self cs → lists s !! self = Some L → head L = Some l →
  cs.*1 !! 0 = Some l.
Proof.
  intros (L' & HL' & Hc) HL Hhd. rewrite HL in HL'. injection HL' as <-.
  rewrite Hhd in Hc. destruct cs as [|k cs]; [done|].
  apply chain_cons_inv in Hc as (Heq & _). simpl. by injection Heq as ->.
Qed.

(** The [next] of a cell of a list is the cell after it. *)
Lemma next_follows s self cs p n l :
  is_list s self cs → p ∈ cs.*1 → nodes s !! p = Some n → next n = Some l →
  ∃ i, cs.*1 !! i = Some p ∧ cs.*1 !! S i = Some l.
Proof.
  intros (L & _ & Hc) Hin Hn Hnx.
  apply list_elem_of_fmap in Hin as ([p' y] & Heq & Hin). simpl in Heq.
  subst p'. apply list_elem_of_split in Hin as (a & b & ->).
  apply seg_app in Hc as (mid & _ & Hrest).
  apply chain_cons_inv in Hrest as (_ & nx & Hp & Hb). simpl in Hp.
  rewrite Hn in Hp. injection Hp as ->. simpl in Hnx. subst nx.
  destruct b as [|[l' z] b]; [done|].
  apply chain_cons_inv in Hb as (Heq & _). simpl in Heq. injection Heq as <-.
  exists (length a). rewrite fmap_app, !fmap_cons. cbn [fst]. split.
  - apply list_lookup_middle. by rewrite length_fmap.
  - replace (a.*1 ++ p :: l :: b.*1) with ((a.*1 ++ [p]) ++ l :: b.*1)
      by (by rewrite <- app_assoc).
    apply (list_lookup_middle (a.*1 ++ [p]) b.*1 l).
    rewrite length_app, length_fmap. simpl. lia.
Qed.

(** A list has no more cells than the store has nodes. *)
Lemma chain_length s self cs : is_list s self cs → length cs ≤ size (nodes s).
Proof.
  intros Hcs. rewrite <- (length_fmap fst cs), <- size_dom.
  rewrite <- (size_list_to_set (C := gset loc) cs.*1)
    by by eapply is_list_NoDup.
  apply subseteq_size. intros l Hl%elem_of_list_to_set.
  by eapply is_list_dom.
Qed.

Lemma inv_well_formed s : inv s → well_formed s.
Proof.
  intros [Hall Hsep]. split; [|split; [|done]].
  - intros self Hin. destruct (Hall self Hin) as (cs & Hcs).
    exists cs. split; [done|]. by eapply is_list_NoDup.
  - assert (Hhead : ∀ o L l, lists s !! o = Some L → head L = Some l →
                             ∃ cs, is_list s o cs ∧ cs.*1 !! 0 = Some l).
    { intros o L l HL Hhd. destruct (Hall o) as (cs & Hcs);
        [by eapply elem_of_dom_2|].
      exists cs. split; [done|]. by eapply head_first. }
    assert (Hsame : ∀ o1 o2 cs1 cs2 i j l,
              is_list s o1 cs1 → is_list s o2 cs2 →
              cs1.*1 !! i = Some l → cs2.*1 !! j = Some l →
              o1 = o2 ∧ cs1 = cs2 ∧ i = j).
    { intros o1 o2 cs1 cs2 i j l H1 H2 Hi Hj.
      destruct (decide (o1 = o2)) as [->|Hne].
      - rewrite (is_list_functional _ _ _ _ H1 H2) in *.
        split; [done|]. split; [done|].
        eapply NoDup_lookup; [by eapply is_list_NoDup|done..].
      - exfalso. eapply (Hsep o1 o2 cs1 cs2 l); eauto;
          apply list_elem_of_lookup; eauto. }
    intros l [o1|p1] [o2|p2]; simpl.
    + intros (L1 & HL1 & Hh1) (L2 & HL2 & Hh2).
      destruct (Hhead _ _ _ HL1 Hh1) as (cs1 & Hc1 & Hi1).
      destruct (Hhead _ _ _ HL2 Hh2) as (cs2 & Hc2 & Hi2).
      by destruct (Hsame _ _ _ _ _ _ _ Hc1 Hc2 Hi1 Hi2) as (-> & _).
    + intros (L1 & HL1 & Hh1) ((o2 & cs2 & Hc2 & Hin2) & n & Hn & Hnx).
      destruct (Hhead _ _ _ HL1 Hh1) as (cs1 & Hc1 & Hi1).
      destruct (next_follows _ _ _ _ _ _ Hc2 Hin2 Hn Hnx) as (j & _ & Hj).
      by destruct (Hsame _ _ _ _ _ _ _ Hc1 Hc2 Hi1 Hj) as (_ & _ & ?).
    + intros ((o1 & cs1 & Hc1 & Hin1) & n & Hn & Hnx) (L2 & HL2 & Hh2).
      destruct (Hhead _ _ _ HL2 Hh2) as (cs2 & Hc2 & Hi2).
      destruct (next_follows _ _ _ _ _ _ Hc1 Hin1 Hn Hnx) as (i & _ & Hi).
      by destruct (Hsame _ _ _ _ _ _ _ Hc1 Hc2 Hi Hi2) as (_ & _ & ?).
    + intros ((o1 & cs1 & Hc1 & Hin1) & n1 & Hn1 & Hnx1)
             ((o2 & cs2 & Hc2 & Hin2) & n2 & Hn2 & Hnx2).
      destruct (next_follows _ _ _ _ _ _ Hc1 Hin1 Hn1 Hnx1) as (i & Hi & HSi).
      destruct (next_follows _ _ _ _ _ _ Hc2 Hin2 Hn2 Hnx2) as (j & Hj & HSj).
      destruct (Hsame _ _ _ _ _ _ _ Hc1 Hc2 HSi HSj) as (_ & -> & Heq).
      injection Heq as ->. rewrite Hi in Hj. by injection Hj as ->.
Qed.

Lemma inv_responsive s : inv s → responsive s.
Proof.
  intros [Hall _] self x fuel Hin Hf.
  destruct (Hall self Hin) as (cs & Hcs).
  pose proof (chain_length _ _ _ Hcs) as Hlen.
  split; [|split].
  - destruct (add_spec s self cs x fuel Hcs) as (s' & Hrun & _); [lia|].
    by exists s'.
  - destruct (decide (0 < occurrences x cs.*2)) as [Hocc|Hocc].
    + destruct (first_occurrence x cs Hocc) as (a & c & b & -> & Ha & _).
      rewrite length_app in Hlen. simpl in Hlen.
      destruct (remove_spec_present s self a c x b fuel Hcs Ha)
        as (s' & Hrun & _); [lia|].
      by exists true, s'.
    + exists false, s. apply (remove_spec_absent s self cs); [done| |lia].
      apply occurrences_zero. lia.
  - eexists. apply (display_run s self cs); [done|lia].
Qed.

End Invariant.

(** ** The example of the source *)

(** Lines 51-64 print the four names, then the three that are left once
    "Bob" is removed. *)
Example example_usage_output :
  ∃ s, example_usage 4 empty_store = Done tt s ∧
       stdout s = ["Current List:"; "Alice"; "Bob"; "Charlie"; "Garfield";
                   String (Ascii.ascii_of_nat 10) "Removing Bob...";
                   "Updated List:"; "Alice"; "Charlie"; "Garfield"].
Proof. eexists. split; vm_compute; reflexivity. Qed.

(** * The methods, claim by claim *)

Section Claims.
Implicit Types (s : store) (cs a b d : list cell) (fuel : nat)
  (x y : string) (xs : list string) (self c p l : loc).

Lemma add_all_spec xs : ∀ s self cs fuel,
  is_list s self cs →
  length cs + length xs ≤ fuel →
  ∃ s' cs', add_all fuel self xs s = Done tt s' ∧
            is_list s' self (cs ++ cs') ∧ cs'.*2 = xs ∧
            stdout s' = stdout s.
Proof.
  induction xs as [|x xs IH]; intros s self cs fuel Hlist Hf; simpl in *.
  - exists s, []. rewrite app_nil_r. done.
  - destruct (add_spec s self cs x fuel Hlist) as (s1 & Hadd & Hl1 & Hout & _);
      [lia|].
    destruct (IH s1 self _ fuel Hl1) as (s2 & cs2 & Hrun & Hl2 & Hnames & Hout2).
    { rewrite length_app. simpl. lia. }
    exists s2, ((fresh (dom (nodes s)), x) :: cs2).
    rewrite (bind_Done _ _ _ _ _ Hadd).
    split; [done|]. rewrite <- app_assoc in Hl2. split; [done|].
    split; [by rewrite fmap_cons, Hnames|]. congruence.
Qed.

(** C1.  A new list, then one [add] per name of [xs]: the calls finish and
    the list holds one node per name, head to tail in the order of the calls
    (each [add] put its node after the last one).  A [display] after them
    finishes and writes exactly the names of [xs], in the order in which they
    were added (for no name at all it writes the line that says the list is
    empty). *)
Theorem add_then_display_in_order s xs fuel :
  length xs ≤ fuel →
  ∃ my_list s1 cs s2,
    (l ← new_LinkedList; add_all fuel l xs ;; mret l) s = Done my_list s1 ∧
    is_list s1 my_list cs ∧ cs.*2 = xs ∧
    display fuel my_list s1 = Done tt s2 ∧
    stdout s2 = stdout s ++ shown xs ∧
    (xs ≠ [] → stdout s2 = stdout s ++ xs).
Proof.
  intros Hf.
  destruct (new_LinkedList_spec s) as (s0 & Hnew & Hl0 & _ & Hout0 & _).
  destruct (add_all_spec xs s0 _ [] fuel Hl0) as (s1 & cs & Hrun & Hl1 & Hn & Hout1);
    [simpl; lia|].
  simpl in Hl1.
  exists (fresh (dom (lists s))), s1, cs. eexists.
  rewrite (bind_Done _ _ _ _ _ Hnew), (bind_Done _ _ _ _ _ Hrun).
  split; [done|]. split; [done|]. split; [done|].
  rewrite (display_run s1 _ cs fuel Hl1).
  - split; [reflexivity|]. simpl. rewrite Hn, Hout1, Hout0. split; [done|].
    by destruct xs.
  - rewrite <- Hn in Hf. by rewrite length_fmap in Hf.
Qed.

Lemma add_then_display_in_order_witness :
  ∃ my_list s1 cs s2,
    (l ← new_LinkedList;
     add_all 4 l ["Alice"; "Bob"; "Charlie"; "Garfield"] ;;
     mret l) empty_store = Done my_list s1 ∧
    is_list s1 my_list cs ∧
    cs.*2 = ["Alice"; "Bob"; "Charlie"; "Garfield"] ∧
    display 4 my_list s1 = Done tt s2 ∧
    stdout s2 = stdout empty_store
                ++ shown ["Alice"; "Bob"; "Charlie"; "Garfield"] ∧
    (["Alice"; "Bob"; "Charlie"; "Garfield"] ≠ [] →
     stdout s2 = stdout empty_store
                 ++ ["Alice"; "Bob"; "Charlie"; "Garfield"]).
Proof.
  apply (add_then_display_in_order empty_store
           ["Alice"; "Bob"; "Charlie"; "Garfield"] 4).
  simpl. lia.
Defined.

(** C2.  [remove(x)] on a list none of whose nodes is named [x] returns
    [False] and leaves the store as it was: no field of any object is
    written and nothing is printed, so the names are the same as before. *)
Theorem remove_absent_is_noop s self cs x fuel :
  is_list s self cs →
  x ∉ cs.*2 →
  length cs ≤ fuel →
  remove fuel self x s = Done false s ∧ is_list s self cs.
Proof.
  intros Hlist Hx Hf. split; [|done]. by eapply remove_spec_absent.
Qed.

Lemma remove_absent_is_noop_witness :
  remove 2 1%positive "Zoe" (sample ["Alice"; "Bob"])
    = Done false (sample ["Alice"; "Bob"]) ∧
  is_list (sample ["Alice"; "Bob"]) 1%positive
    [(1%positive, "Alice"); (2%positive, "Bob")].
Proof.
  apply (remove_absent_is_noop (sample ["Alice"; "Bob"]) 1%positive
           [(1%positive, "Alice"); (2%positive, "Bob")] "Zoe" 2).
  - list_by_eval.
  - apply (bool_decide_unpack _). vm_compute. reflexivity.
  - simpl. lia.
Defined.

(** C3.  [remove(x)] on a list in which exactly one node is named [x]
    returns [True]; a [display] after it writes the names the list had
    before, in the same order, with [x] left out. *)
Theorem remove_single_occurrence s self cs x fuel :
  is_list s self cs →
  occurrences x cs.*2 = 1 →
  length cs ≤ fuel →
  ∃ s1 s2, remove fuel self x s = Done true s1 ∧
           is_list s1 self (filter (λ k, k.2 ≠ x) cs) ∧
           display fuel self s1 = Done tt s2 ∧
           stdout s2 = stdout s ++ shown (filter (λ y, y ≠ x) cs.*2).
Proof.
  intros Hlist Hocc Hf.
  destruct (first_occurrence x cs) as (a & c & b & -> & Ha & Hb); [lia|].
  assert (Hxb : x ∉ b.*2) by (apply occurrences_zero; lia).
  rewrite length_app in Hf. simpl in Hf.
  destruct (remove_spec_present s self a c x b fuel Hlist Ha)
    as (s1 & Hrem & Hl1 & Hout & _); [lia|].
  assert (Hfil : filter (λ k : cell, k.2 ≠ x) (a ++ (c, x) :: b) = a ++ b).
  { rewrite filter_app, filter_cons_False by (intros H; by apply H).
    by rewrite !filter_other_cells. }
  exists s1. eexists. split; [done|]. rewrite Hfil. split; [done|].
  rewrite (display_run s1 self (a ++ b) fuel Hl1).
  - split; [reflexivity|]. simpl. rewrite Hout. do 2 f_equal.
    rewrite !fmap_app. simpl. by rewrite filter_single_name.
  - rewrite length_app. lia.
Qed.

Lemma remove_single_occurrence_witness :
  ∃ s1 s2, remove 3 1%positive "Bob" (sample ["Alice"; "Bob"; "Eve"])
             = Done true s1 ∧
           is_list s1 1%positive
             (filter (λ k, k.2 ≠ "Bob")
                [(1%positive, "Alice"); (2%positive, "Bob");
                 (3%positive, "Eve")]) ∧
           display 3 1%positive s1 = Done tt s2 ∧
           stdout s2 = stdout (sample ["Alice"; "Bob"; "Eve"])
                       ++ shown (filter (λ y, y ≠ "Bob")
                                   [(1%positive, "Alice"); (2%positive, "Bob");
                                    (3%positive, "Eve")].*2).
Proof.
  apply (remove_single_occurrence (sample ["Alice"; "Bob"; "Eve"]) 1%positive
           [(1%positive, "Alice"); (2%positive, "Bob"); (3%positive, "Eve")]
           "Bob" 3).
  - list_by_eval.
  - vm_compute. reflexivity.
  - simpl. lia.
Defined.

(** C4.  [remove(x)] on a list with more than one node named [x] takes
    out the first of them only: the list splits as [a], the first node
    named [x], [b], the second node named [x], [d], and after the call it
    holds [a], [b], the second node and [d]: the later nodes named [x] are
    still there, at their places.  A second [remove(x)] takes out what
    was the second node named [x]. *)
Theorem remove_takes_first_duplicate s self cs x fuel :
  is_list s self cs →
  1 < occurrences x cs.*2 →
  length cs ≤ fuel →
  ∃ a c1 b c2 d s1 s2,
    cs = a ++ (c1, x) :: b ++ (c2, x) :: d ∧ (x ∉ a.*2) ∧ (x ∉ b.*2) ∧
    remove fuel self x s = Done true s1 ∧
    is_list s1 self (a ++ b ++ (c2, x) :: d) ∧
    occurrences x (a ++ b ++ (c2, x) :: d).*2 = occurrences x cs.*2 - 1 ∧
    remove fuel self x s1 = Done true s2 ∧
    is_list s2 self (a ++ b ++ d).
Proof.
  intros Hlist Hocc Hf.
  destruct (first_occurrence x cs) as (a & c1 & r & -> & Ha & Hr); [lia|].
  destruct (first_occurrence x r) as (b & c2 & d & -> & Hb & Hd); [lia|].
  rewrite !length_app in Hf. simpl in Hf. rewrite length_app in Hf. simpl in Hf.
  destruct (remove_spec_present s self a c1 x _ fuel Hlist Ha)
    as (s1 & Hrem1 & Hl1 & _); [lia|].
  assert (Hab : x ∉ (a ++ b).*2).
  { rewrite fmap_app. intros [H|H]%elem_of_app; [by apply Ha|by apply Hb]. }
  rewrite app_assoc in Hl1.
  destruct (remove_spec_present s1 self (a ++ b) c2 x d fuel Hl1 Hab)
    as (s2 & Hrem2 & Hl2 & _); [rewrite length_app; lia|].
  rewrite <- !app_assoc in *.
  exists a, c1, b, c2, d, s1, s2. repeat (split; [done|]).
  split; [|done]. rewrite Hr. rewrite !fmap_app. simpl.
  unfold occurrences. rewrite !filter_app. rewrite !length_app.
  fold (occurrences x a.*2). rewrite (not_in_occurrences x a.*2 Ha). simpl. lia.
Qed.

Lemma remove_takes_first_duplicate_witness :
  ∃ a c1 b c2 d s1 s2,
    [(1%positive, "Ann"); (2%positive, "Bob"); (3%positive, "Ann")]
      = a ++ (c1, "Ann") :: b ++ (c2, "Ann") :: d ∧
    ("Ann" ∉ a.*2) ∧ ("Ann" ∉ b.*2) ∧
    remove 3 1%positive "Ann" (sample ["Ann"; "Bob"; "Ann"]) = Done true s1 ∧
    is_list s1 1%positive (a ++ b ++ (c2, "Ann") :: d) ∧
    occurrences "Ann" (a ++ b ++ (c2, "Ann") :: d).*2
      = occurrences "Ann"
          [(1%positive, "Ann"); (2%positive, "Bob"); (3%positive, "Ann")].*2
        - 1 ∧
    remove 3 1%positive "Ann" s1 = Done true s2 ∧
    is_list s2 1%positive (a ++ b ++ d).
Proof.
  apply (remove_takes_first_duplicate (sample ["Ann"; "Bob"; "Ann"]) 1%positive
           [(1%positive, "Ann"); (2%positive, "Bob"); (3%positive, "Ann")]
           "Ann" 3).
  - list_by_eval.
  - vm_compute. lia.
  - simpl. lia.
Defined.

(** C5.  [remove(x)] on a list whose [head] is [None] returns [False] and
    leaves the store as it was (the list is still empty), for every name
    and whatever the fuel. *)
Theorem remove_on_empty s self x fuel :
  lists s !! self = Some (mkLinkedList None) →
  remove fuel self x s = Done false s ∧ is_list s self [].
Proof.
  intros Hself. split.
  - unfold remove. rewrite (bind_Done _ _ _ _ _ (read_head_Done _ _ _ Hself)).
    simpl. by destruct fuel.
  - by exists (mkLinkedList None).
Qed.

Lemma remove_on_empty_witness :
  remove 0 1%positive "Bob" (sample []) = Done false (sample []) ∧
  is_list (sample []) 1%positive [].
Proof.
  apply (remove_on_empty (sample []) 1%positive "Bob" 0). reflexivity.
Defined.

(** C6.  When the head node is named [x], [remove(x)] returns [True] and
    sets the [head] of the list to the [next] of that node, writing no
    node; the list then holds the cells after the head.  For a list of one
    node the [head] becomes [None], and a [display] after it writes the
    line that says the list is empty. *)
Theorem remove_head_relinks s self c x b fuel :
  is_list s self ((c, x) :: b) →
  0 < fuel →
  ∃ n s', nodes s !! c = Some n ∧
          remove fuel self x s = Done true s' ∧
          lists s' !! self = Some (mkLinkedList (next n)) ∧
          nodes s' = nodes s ∧
          is_list s' self b ∧
          (b = [] →
           lists s' !! self = Some (mkLinkedList None) ∧
           ∀ fuel', display fuel' self s' =
                      Done tt (mkStore (nodes s') (lists s')
                                 (stdout s ++ ["The list is empty."]))).
Proof.
  intros Hlist Hf. destruct (Hlist) as (L & Hself & Hc).
  apply chain_cons_inv in Hc as (Hhd & nxc & Hcn & Hb). simpl in Hcn.
  exists (mkNode x nxc). eexists. split; [done|].
  split; [by eapply remove_run_head|]. simpl.
  split; [apply lookup_insert_eq|]. split; [done|].
  assert (Hl' : is_list
            (mkStore (nodes s) (<[self := mkLinkedList nxc]> (lists s)) (stdout s))
            self b).
  { eexists. split; [apply lookup_insert_eq|done]. }
  split; [done|]. intros ->. unfold chain in Hb. simpl in Hb. subst nxc.
  split; [apply lookup_insert_eq|]. intros fuel'.
  rewrite (display_run _ self [] fuel' Hl'); [done|simpl; lia].
Qed.

Lemma remove_head_relinks_witness :
  ∃ n s', nodes (sample ["Solo"]) !! 1%positive = Some n ∧
          remove 1 1%positive "Solo" (sample ["Solo"]) = Done true s' ∧
          lists s' !! 1%positive = Some (mkLinkedList (next n)) ∧
          nodes s' = nodes (sample ["Solo"]) ∧
          is_list s' 1%positive [] ∧
          (@nil cell = [] →
           lists s' !! 1%positive = Some (mkLinkedList None) ∧
           ∀ fuel', display fuel' 1%positive s' =
                      Done tt (mkStore (nodes s') (lists s')
                                 (stdout (sample ["Solo"])
                                  ++ ["The list is empty."]))).
Proof.
  apply (remove_head_relinks (sample ["Solo"]) 1%positive 1%positive "Solo" [] 1).
  - list_by_eval.
  - lia.
Defined.

(** C7.  [display] on a well-formed list finishes and writes no field of
    any object: the nodes and the list objects, and so the [head] and the
    sequence of names, are the same after the call as before.  It only
    prints: the names from head to tail, or, for the empty list, the one
    line that says the list is empty and no name. *)
Theorem display_is_pure s self cs fuel :
  is_list s self cs →
  length cs ≤ fuel →
  ∃ s', display fuel self s = Done tt s' ∧
        nodes s' = nodes s ∧ lists s' = lists s ∧
        is_list s' self cs ∧
        (cs = [] → stdout s' = stdout s ++ ["The list is empty."]) ∧
        (cs ≠ [] → stdout s' = stdout s ++ cs.*2).
Proof.
  intros Hlist Hf. eexists. split; [by apply display_run|]. simpl.
  split; [done|]. split; [done|]. split.
  - by eapply is_list_agree; [..|exact Hlist].
  - split; [by intros ->|]. by destruct cs.
Qed.

Lemma display_is_pure_witness :
  ∃ s', display 2 1%positive (sample ["Alice"; "Bob"]) = Done tt s' ∧
        nodes s' = nodes (sample ["Alice"; "Bob"]) ∧
        lists s' = lists (sample ["Alice"; "Bob"]) ∧
        is_list s' 1%positive [(1%positive, "Alice"); (2%positive, "Bob")] ∧
        ([(1%positive, "Alice"); (2%positive, "Bob")] = [] →
         stdout s' = stdout (sample ["Alice"; "Bob"])
                     ++ ["The list is empty."]) ∧
        ([(1%positive, "Alice"); (2%positive, "Bob")] ≠ [] →
         stdout s' = stdout (sample ["Alice"; "Bob"])
                     ++ [(1%positive, "Alice"); (2%positive, "Bob")].*2).
Proof.
  apply (display_is_pure (sample ["Alice"; "Bob"]) 1%positive
           [(1%positive, "Alice"); (2%positive, "Bob")] 2).
  - list_by_eval.
  - simpl. lia.
Defined.

(** C8.  [add(x)] on a well-formed list finishes for every string [x] (the
    empty string and a name that the list already holds included).  After
    it the list holds the cells it held, in the same order, followed by one
    new node named [x].  Nothing else changes: nothing is printed, every
    other list object is as before, every node that existed keeps its
    name, and every node outside this list is as before. *)
Theorem add_appends_one s self cs x fuel :
  is_list s self cs →
  length cs ≤ fuel →
  ∃ s' l, add fuel self x s = Done tt s' ∧
          (l ∉ dom (nodes s)) ∧
          is_list s' self (cs ++ [(l, x)]) ∧
          stdout s' = stdout s ∧
          (∀ o, o ≠ self → lists s' !! o = lists s !! o) ∧
          (∀ l' n, nodes s !! l' = Some n →
                   ∃ n', nodes s' !! l' = Some n' ∧ name n' = name n) ∧
          (∀ l', l' ∈ dom (nodes s) → l' ∉ cs.*1 →
                 nodes s' !! l' = nodes s !! l').
Proof.
  intros Hlist Hf.
  destruct (add_spec s self cs x fuel Hlist Hf)
    as (s' & Hadd & Hl' & Hout & _ & Hlists & Hframe & Hnames).
  exists s', (fresh (dom (nodes s))). split; [done|].
  split; [apply is_fresh|]. done.
Qed.

Lemma add_appends_one_witness :
  ∃ s' l, add 2 1%positive "" (sample ["Bob"; ""]) = Done tt s' ∧
          (l ∉ dom (nodes (sample ["Bob"; ""]))) ∧
          is_list s' 1%positive
            ([(1%positive, "Bob"); (2%positive, "")] ++ [(l, "")]) ∧
          stdout s' = stdout (sample ["Bob"; ""]) ∧
          (∀ o, o ≠ 1%positive →
                lists s' !! o = lists (sample ["Bob"; ""]) !! o) ∧
          (∀ l' n, nodes (sample ["Bob"; ""]) !! l' = Some n →
                   ∃ n', nodes s' !! l' = Some n' ∧ name n' = name n) ∧
          (∀ l', l' ∈ dom (nodes (sample ["Bob"; ""])) →
                 l' ∉ [(1%positive, "Bob"); (2%positive, "")].*1 →
                 nodes s' !! l' = nodes (sample ["Bob"; ""]) !! l').
Proof.
  apply (add_appends_one (sample ["Bob"; ""]) 1%positive
           [(1%positive, "Bob"); (2%positive, "")] "" 2).
  - list_by_eval.
  - simpl. lia.
Defined.

(** C10.  Whenever [remove(x)] on a well-formed list returns [True], the
    list held a node named [x]; the list after the call is the list before
    it with the first such node taken out, every other cell being the same
    and at the same relative place, and it is shorter by exactly one,
    however many nodes are named [x]. *)
Theorem remove_true_removes_exactly_one s self cs x fuel s' :
  is_list s self cs →
  length cs ≤ fuel →
  remove fuel self x s = Done true s' →
  ∃ a c b, cs = a ++ (c, x) :: b ∧ (x ∉ a.*2) ∧
           is_list s' self (a ++ b) ∧
           a ++ b = without_first x cs ∧
           S (length (a ++ b)) = length cs ∧
           (∀ cs', is_list s' self cs' → cs' = a ++ b).
Proof.
  intros Hlist Hf Hrem.
  destruct (decide (0 < occurrences x cs.*2)) as [Hocc|Hocc].
  - destruct (first_occurrence x cs Hocc) as (a & c & b & -> & Ha & _).
    rewrite length_app in Hf. simpl in Hf.
    destruct (remove_spec_present s self a c x b fuel Hlist Ha)
      as (s1 & Hrem1 & Hl1 & _); [lia|].
    rewrite Hrem in Hrem1. injection Hrem1 as <-.
    exists a, c, b. split; [done|]. split; [done|]. split; [done|].
    split; [by rewrite without_first_at|]. split.
    + rewrite !length_app. simpl. lia.
    + intros cs' Hcs'. by eapply is_list_functional.
  - assert (Hx : x ∉ cs.*2) by (apply occurrences_zero; lia).
    rewrite (remove_spec_absent s self cs x fuel Hlist Hx Hf) in Hrem.
    discriminate.
Qed.

Lemma remove_true_removes_exactly_one_witness :
  ∃ a c b,
    [(1%positive, "Ann"); (2%positive, "Bob"); (3%positive, "Bob")]
      = a ++ (c, "Bob") :: b ∧
    ("Bob" ∉ a.*2) ∧
    is_list (store_of (remove 3 1%positive "Bob" (sample ["Ann"; "Bob"; "Bob"])))
      1%positive (a ++ b) ∧
    a ++ b = without_first "Bob"
               [(1%positive, "Ann"); (2%positive, "Bob"); (3%positive, "Bob")] ∧
    S (length (a ++ b))
      = length [(1%positive, "Ann"); (2%positive, "Bob"); (3%positive, "Bob")] ∧
    (∀ cs', is_list (store_of (remove 3 1%positive "Bob"
                                 (sample ["Ann"; "Bob"; "Bob"])))
              1%positive cs' → cs' = a ++ b).
Proof.
  apply (remove_true_removes_exactly_one (sample ["Ann"; "Bob"; "Bob"])
           1%positive
           [(1%positive, "Ann"); (2%positive, "Bob"); (3%positive, "Bob")]
           "Bob" 3).
  - list_by_eval.
  - simpl. lia.
  - vm_compute. reflexivity.
Defined.

(** C9.  In every store that a program reaches from the empty store by
    calls of [LinkedList()], [add], [remove] and [display] that finish:
    from the [head] of every list the walk along [next] ends after
    finitely many nodes and visits no node twice; no node is referred to
    from two places (two [head] fields, two [next] fields of live nodes,
    or one of each); no node belongs to two lists; and every further call
    of a method on an existing list finishes, given fuel for as many loop
    rounds as the store has nodes. *)
Theorem structure_invariant s :
  reachable s → well_formed s ∧ responsive s.
Proof.
  intros Hreach%reachable_inv. split.
  - by apply inv_well_formed.
  - by apply inv_responsive.
Qed.

Lemma structure_invariant_witness :
  well_formed
    (after_call (Display 1%positive)
       (after_call (Remove 1%positive "Bob")
          (after_call (Add 2%positive "Bob")
             (after_call New
                (after_call (Add 1%positive "Bob")
                   (after_call (Add 1%positive "Alice")
                      (after_call New empty_store))))))) ∧
  responsive
    (after_call (Display 1%positive)
       (after_call (Remove 1%positive "Bob")
          (after_call (Add 2%positive "Bob")
             (after_call New
                (after_call (Add 1%positive "Bob")
                   (after_call (Add 1%positive "Alice")
                      (after_call New empty_store))))))).
Proof.
  apply (structure_invariant
           (after_call (Display 1%positive)
              (after_call (Remove 1%positive "Bob")
                 (after_call (Add 2%positive "Bob")
                    (after_call New
                       (after_call (Add 1%positive "Bob")
                          (after_call (Add 1%positive "Alice")
                             (after_call New empty_store)))))))).
  reachable_by_eval.
Defined.

End Claims.

(** * Further properties of the methods *)

Section MoreNames.
Implicit Types (cs a b : list cell) (x y : string) (xs : list string).

Lemma occurrences_pos x xs : x ∈ xs → 0 < occurrences x xs.
Proof.
  intros Hin. destruct (occurrences x xs) eqn:Hocc; [|lia].
  by apply occurrences_zero in Hocc.
Qed.

Lemma without_first_absent x cs : x ∉ cs.*2 → without_first x cs = cs.
Proof.
  induction cs as [|[l y] cs IH]; [done|]. rewrite fmap_cons. simpl.
  intros [Hne Hin]%not_elem_of_cons.
  destruct (String.eqb_spec y x) as [->|_]; [done|]. by rewrite IH.
Qed.

Lemma without_first_length x cs : length (without_first x cs) ≤ length cs.
Proof.
  induction cs as [|[l y] cs IH]; simpl; [lia|].
  destruct (String.eqb y x); simpl; lia.
Qed.

Lemma without_first_other x y cs :
  y ≠ x → y ∈ (without_first x cs).*2 ↔ y ∈ cs.*2.
Proof.
  intros Hne. induction cs as [|[l z] cs IH]; [done|].
  cbn [without_first snd]. destruct (String.eqb_spec z x) as [->|Hzx].
  - rewrite fmap_cons. cbn [snd]. rewrite elem_of_cons. split; [by right|].
    intros [?|?]; [done|done].
  - rewrite !fmap_cons. cbn [snd]. rewrite !elem_of_cons. by rewrite IH.
Qed.

Lemma without_first_comm x y cs :
  without_first x (without_first y cs) = without_first y (without_first x cs).
Proof.
  induction cs as [|[l z] cs IH]; [done|]. simpl.
  destruct (String.eqb_spec z y) as [Hzy|Hzy];
    destruct (String.eqb_spec z x) as [Hzx|Hzx]; simpl.
  - by subst.
  - rewrite (proj2 (String.eqb_eq z y) Hzy). done.
  - rewrite (proj2 (String.eqb_eq z x) Hzx). done.
  - rewrite (proj2 (String.eqb_neq z y) Hzy), (proj2 (String.eqb_neq z x) Hzx).
    by rewrite IH.
Qed.

Lemma filter_first_occurrence x a c b :
  x ∉ a.*2 →
  filter (λ k : cell, k.2 ≠ x) (a ++ (c, x) :: b)
    = filter (λ k : cell, k.2 ≠ x) (a ++ b).
Proof.
  intros Ha. rewrite !filter_app. f_equal.
  rewrite filter_cons_False; [done|]. intros H. by apply H.
Qed.

End MoreNames.

Section RemoveInFull.
Implicit Types (s : store) (cs a b : list cell) (fuel : nat)
  (x y : string) (self c p l : loc).

(** [remove] on a well-formed list, whatever the list holds. *)
Lemma remove_spec s self cs x fuel :
  is_list s self cs →
  length cs ≤ fuel →
  ∃ s', remove fuel self x s = Done (bool_decide (x ∈ cs.*2)) s' ∧
        is_list s' self (without_first x cs) ∧
        stdout s' = stdout s.
Proof.
  intros Hcs Hf. destruct (decide (x ∈ cs.*2)) as [Hin|Hnot].
  - rewrite bool_decide_eq_true_2 by done.
    destruct (first_occurrence x cs (occurrences_pos _ _ Hin))
      as (a & c & b & -> & Ha & _).
    rewrite length_app in Hf. simpl in Hf.
    destruct (remove_spec_present s self a c x b fuel Hcs Ha)
      as (s' & Hrun & Hl' & Hout & _); [lia|].
    exists s'. by rewrite without_first_at.
  - rewrite bool_decide_eq_false_2 by done.
    exists s. rewrite without_first_absent by done.
    split; [by apply (remove_spec_absent s self cs)|done].
Qed.

End RemoveInFull.

Section RemoveComposed.
Implicit Types (s : store) (cs a b : list cell) (fuel : nat)
  (x y : string) (self c p l : loc).

(** X1.  On a well-formed list [remove(x)] always finishes; the value it
    returns is [True] exactly when some node is named [x]; the list
    afterwards is the list before without its first node named [x] (the
    same list when there is none); and nothing is printed. *)
Theorem remove_result_is_membership s self cs x fuel :
  is_list s self cs →
  length cs ≤ fuel →
  ∃ r s', remove fuel self x s = Done r s' ∧
          (r = true ↔ x ∈ cs.*2) ∧
          is_list s' self (without_first x cs) ∧
          stdout s' = stdout s.
Proof.
  intros Hcs Hf.
  destruct (remove_spec s self cs x fuel Hcs Hf) as (s' & Hrun & Hl' & Hout).
  exists (bool_decide (x ∈ cs.*2)), s'. split; [done|]. split; [|done].
  apply bool_decide_eq_true.
Qed.

Lemma remove_result_is_membership_witness :
  ∃ r s', remove 2 1%positive "Bob" (sample ["Alice"; "Bob"]) = Done r s' ∧
          (r = true ↔ "Bob" ∈ [(1%positive, "Alice"); (2%positive, "Bob")].*2) ∧
          is_list s' 1%positive
            (without_first "Bob" [(1%positive, "Alice"); (2%positive, "Bob")]) ∧
          stdout s' = stdout (sample ["Alice"; "Bob"]).
Proof.
  apply (remove_result_is_membership (sample ["Alice"; "Bob"]) 1%positive
           [(1%positive, "Alice"); (2%positive, "Bob")] "Bob" 2).
  - list_by_eval.
  - simpl. lia.
Defined.

(** X2.  When [n] nodes of a well-formed list are named [x], the first [n]
    calls of [remove(x)] return [True] and the next one returns [False];
    the list then holds the cells with another name, in their old order,
    and nothing has been printed. *)
Theorem remove_until_absent s self cs x fuel :
  is_list s self cs →
  length cs ≤ fuel →
  ∃ s', remove_times fuel self x (S (occurrences x cs.*2)) s
          = Done (replicate (occurrences x cs.*2) true ++ [false]) s' ∧
        is_list s' self (filter (λ k, k.2 ≠ x) cs) ∧
        stdout s' = stdout s.
Proof.
  intros Hcs Hf. remember (occurrences x cs.*2) as n eqn:Hocc.
  symmetry in Hocc. revert s cs Hcs Hf Hocc.
  induction n as [|n IH]; intros s cs Hcs Hf Hocc.
  - assert (Hx : x ∉ cs.*2) by by apply occurrences_zero.
    exists s. cbn [remove_times].
    rewrite (bind_Done _ _ _ _ _ (remove_spec_absent s self cs x fuel Hcs Hx Hf)).
    rewrite filter_other_cells by done. done.
  - destruct (first_occurrence x cs) as (a & c & b & -> & Ha & Hb); [lia|].
    rewrite length_app in Hf. simpl in Hf.
    destruct (remove_spec_present s self a c x b fuel Hcs Ha)
      as (s1 & Hrun & Hl1 & Hout1 & _); [lia|].
    destruct (IH s1 (a ++ b) Hl1) as (s2 & Hrest & Hl2 & Hout2).
    { rewrite length_app. lia. }
    { rewrite fmap_app. unfold occurrences. rewrite filter_app, length_app.
      fold (occurrences x a.*2) (occurrences x b.*2).
      rewrite (not_in_occurrences x a.*2 Ha). lia. }
    exists s2. change (remove_times fuel self x (S (S n))) with
      (r ← remove fuel self x;
       rs ← remove_times fuel self x (S n); mret (r :: rs)).
    rewrite (bind_Done _ _ _ _ _ Hrun), (bind_Done _ _ _ _ _ Hrest).
    split; [done|]. rewrite filter_first_occurrence by done.
    split; [done|]. congruence.
Qed.

Lemma remove_until_absent_witness :
  ∃ s', remove_times 3 1%positive "Ann"
          (S (occurrences "Ann"
                [(1%positive, "Ann"); (2%positive, "Bob"); (3%positive, "Ann")].*2))
          (sample ["Ann"; "Bob"; "Ann"])
          = Done (replicate
                    (occurrences "Ann"
                       [(1%positive, "Ann"); (2%positive, "Bob");
                        (3%positive, "Ann")].*2) true ++ [false]) s' ∧
        is_list s' 1%positive
          (filter (λ k, k.2 ≠ "Ann")
             [(1%positive, "Ann"); (2%positive, "Bob"); (3%positive, "Ann")]) ∧
        stdout s' = stdout (sample ["Ann"; "Bob"; "Ann"]).
Proof.
  apply (remove_until_absent (sample ["Ann"; "Bob"; "Ann"]) 1%positive
           [(1%positive, "Ann"); (2%positive, "Bob"); (3%positive, "Ann")]
           "Ann" 3).
  - list_by_eval.
  - simpl. lia.
Defined.

(** X3.  Two calls of [remove] with different names can be made in either
    order: the values returned for each name are the same and the list
    holds the same cells at the end. *)
Theorem remove_two_names_commute s self cs x y fuel :
  is_list s self cs →
  length cs ≤ fuel →
  x ≠ y →
  ∃ rx ry s1 s2 s1' s2' cs',
    remove fuel self x s = Done rx s1 ∧ remove fuel self y s1 = Done ry s2 ∧
    remove fuel self y s = Done ry s1' ∧ remove fuel self x s1' = Done rx s2' ∧
    is_list s2 self cs' ∧ is_list s2' self cs'.
Proof.
  intros Hcs Hf Hne.
  destruct (remove_spec s self cs x fuel Hcs Hf) as (s1 & Hx & Hl1 & _).
  destruct (remove_spec s1 self _ y fuel Hl1) as (s2 & Hy & Hl2 & _).
  { pose proof (without_first_length x cs). lia. }
  destruct (remove_spec s self cs y fuel Hcs Hf) as (s1' & Hy' & Hl1' & _).
  destruct (remove_spec s1' self _ x fuel Hl1') as (s2' & Hx' & Hl2' & _).
  { pose proof (without_first_length y cs). lia. }
  exists (bool_decide (x ∈ cs.*2)), (bool_decide (y ∈ cs.*2)), s1, s2, s1', s2'.
  exists (without_first y (without_first x cs)).
  rewrite (bool_decide_ext _ (y ∈ cs.*2)) in Hy
    by (apply without_first_other; congruence).
  rewrite (bool_decide_ext _ (x ∈ cs.*2)) in Hx'
    by (apply without_first_other; congruence).
  rewrite (without_first_comm x y) in Hl2'. done.
Qed.

Lemma remove_two_names_commute_witness :
  ∃ rx ry s1 s2 s1' s2' cs',
    remove 3 1%positive "Ann" (sample ["Ann"; "Bob"; "Ann"]) = Done rx s1 ∧
    remove 3 1%positive "Bob" s1 = Done ry s2 ∧
    remove 3 1%positive "Bob" (sample ["Ann"; "Bob"; "Ann"]) = Done ry s1' ∧
    remove 3 1%positive "Ann" s1' = Done rx s2' ∧
    is_list s2 1%positive cs' ∧ is_list s2' 1%positive cs'.
Proof.
  apply (remove_two_names_commute (sample ["Ann"; "Bob"; "Ann"]) 1%positive
           [(1%positive, "Ann"); (2%positive, "Bob"); (3%positive, "Ann")]
           "Ann" "Bob" 3).
  - list_by_eval.
  - simpl. lia.
  - discriminate.
Defined.

End RemoveComposed.

Section Links.
Implicit Types (s : store) (cs a b : list cell) (fuel : nat)
  (x y : string) (self c p l o : loc).

(** X4.  [add(x)] on a well-formed list creates one node and writes one
    field besides: the [head] of the list when the list is empty, and
    otherwise the [next] of its last node, the [head] staying as it was.
    The store after the call is the store before it with these two
    changes and no other. *)
Theorem add_writes_one_link s self cs x fuel :
  is_list s self cs →
  length cs ≤ fuel →
  add fuel self x s =
    Done tt
      (match last cs with
       | None =>
           mkStore (<[fresh (dom (nodes s)) := mkNode x None]> (nodes s))
                   (<[self := mkLinkedList (Some (fresh (dom (nodes s))))]>
                      (lists s))
                   (stdout s)
       | Some k =>
           mkStore (<[k.1 := mkNode k.2 (Some (fresh (dom (nodes s))))]>
                      (<[fresh (dom (nodes s)) := mkNode x None]> (nodes s)))
                   (lists s) (stdout s)
       end).
Proof.
  intros Hcs Hf. destruct cs as [|[p y] cs0 _] using rev_ind.
  - destruct Hcs as ([hd] & Hself & Hc). unfold chain in Hc. simpl in Hc.
    subst hd. simpl. by apply add_run_empty.
  - rewrite last_snoc. rewrite length_app in Hf. simpl in Hf.
    apply (add_run_nonempty s self cs0 p y x fuel Hcs). lia.
Qed.

Lemma add_writes_one_link_witness :
  add 2 1%positive "Eve" (sample ["Alice"; "Bob"]) =
    Done tt
      (match last [(1%positive, "Alice"); (2%positive, "Bob")] with
       | None =>
           mkStore (<[fresh (dom (nodes (sample ["Alice"; "Bob"])))
                      := mkNode "Eve" None]> (nodes (sample ["Alice"; "Bob"])))
                   (<[1%positive := mkLinkedList
                        (Some (fresh (dom (nodes (sample ["Alice"; "Bob"])))))]>
                      (lists (sample ["Alice"; "Bob"])))
                   (stdout (sample ["Alice"; "Bob"]))
       | Some k =>
           mkStore (<[k.1 := mkNode k.2
                        (Some (fresh (dom (nodes (sample ["Alice"; "Bob"])))))]>
                      (<[fresh (dom (nodes (sample ["Alice"; "Bob"])))
                         := mkNode "Eve" None]>
                         (nodes (sample ["Alice"; "Bob"]))))
                   (lists (sample ["Alice"; "Bob"]))
                   (stdout (sample ["Alice"; "Bob"]))
       end).
Proof.
  apply (add_writes_one_link (sample ["Alice"; "Bob"]) 1%positive
           [(1%positive, "Alice"); (2%positive, "Bob")] "Eve" 2).
  - list_by_eval.
  - simpl. lia.
Defined.

(** X5.  [remove(x)] that finds its first node named [x] at [c] writes one
    field: the [head] of the list when [c] is the head, and otherwise the
    [next] of the node before [c]; either way the field receives what the
    [next] of [c] holds.  No other field is written; the node [c] itself is
    left as it was, its [next] still referring to the node that came after
    it. *)
Theorem remove_writes_one_link s self a c x b fuel :
  is_list s self (a ++ (c, x) :: b) →
  x ∉ a.*2 →
  length a < fuel →
  ∃ n s', nodes s !! c = Some n ∧
          remove fuel self x s = Done true s' ∧
          s' = match last a with
               | None =>
                   mkStore (nodes s)
                           (<[self := mkLinkedList (next n)]> (lists s))
                           (stdout s)
               | Some k =>
                   mkStore (<[k.1 := mkNode k.2 (next n)]> (nodes s))
                           (lists s) (stdout s)
               end ∧
          nodes s' !! c = Some n.
Proof.
  intros Hcs Ha Hf. pose proof (is_list_NoDup _ _ _ Hcs) as Hnd.
  destruct (Hcs) as (L & Hself & Hc).
  apply seg_app in Hc as (mid & Hseg & Hrest).
  apply chain_cons_inv in Hrest as (-> & nxc & Hcn & Hb). simpl in Hcn.
  exists (mkNode x nxc).
  destruct a as [|[p y] a0 _] using rev_ind.
  - simpl in *. eexists. split; [done|].
    split; [by eapply remove_run_head|]. done.
  - rewrite last_snoc. rewrite <- app_assoc in Hcs. simpl in Hcs.
    rewrite length_app in Hf. simpl in Hf. eexists. split; [done|].
    split; [eapply remove_run_inner; eauto; lia|]. split; [done|]. simpl.
    rewrite lookup_insert_ne; [done|]. intros <-.
    rewrite <- app_assoc, fmap_app in Hnd. simpl in Hnd.
    apply NoDup_app in Hnd as (_ & _ & Hnd).
    apply NoDup_cons in Hnd as (Hnot & _). apply Hnot. left.
Qed.

Lemma remove_writes_one_link_witness :
  ∃ n s', nodes (sample ["Alice"; "Bob"; "Eve"]) !! 2%positive = Some n ∧
          remove 3 1%positive "Bob" (sample ["Alice"; "Bob"; "Eve"])
            = Done true s' ∧
          s' = match last [(1%positive, "Alice")] with
               | None =>
                   mkStore (nodes (sample ["Alice"; "Bob"; "Eve"]))
                           (<[1%positive := mkLinkedList (next n)]>
                              (lists (sample ["Alice"; "Bob"; "Eve"])))
                           (stdout (sample ["Alice"; "Bob"; "Eve"]))
               | Some k =>
                   mkStore (<[k.1 := mkNode k.2 (next n)]>
                              (nodes (sample ["Alice"; "Bob"; "Eve"])))
                           (lists (sample ["Alice"; "Bob"; "Eve"]))
                           (stdout (sample ["Alice"; "Bob"; "Eve"]))
               end ∧
          nodes s' !! 2%positive = Some n.
Proof.
  apply (remove_writes_one_link (sample ["Alice"; "Bob"; "Eve"]) 1%positive
           [(1%positive, "Alice")] 2%positive "Bob" [(3%positive, "Eve")] 3).
  - list_by_eval.
  - apply (bool_decide_unpack _). vm_compute. reflexivity.
  - simpl. lia.
Defined.



End Links.

Section OtherLists.
Implicit Types (s : store) (cs a b : list cell) (fuel : nat)
  (x y : string) (self c p l o : loc).

(** A list that shares no node with the list being changed keeps its
    cells. *)
Lemma other_list_kept s s' self cs o (cs_o : list cell) :
  inv s →
  is_list s self cs →
  is_list s o cs_o →
  o ≠ self →
  (∀ o', o' ≠ self → lists s' !! o' = lists s !! o') →
  (∀ l, l ∈ dom (nodes s) → l ∉ cs.*1 → nodes s' !! l = nodes s !! l) →
  is_list s' o cs_o.
Proof.
  intros [_ Hsep] Hcs Hlo Ho Hlists Hnodes.
  eapply (is_list_agree s); [by apply Hlists| |exact Hlo].
  intros l Hin. apply Hnodes; [by eapply is_list_dom|].
  intros Hin'. by eapply (Hsep o self cs_o cs l).
Qed.

(** X7.  In a store that a program has reached, a call that finishes
    changes no list but the one it is made on: every other list object
    holds the same nodes, with the same names, in the same order as
    before the call.  (A call of [LinkedList()] changes no existing
    list.) *)
Theorem call_leaves_other_lists s (k : call) fuel s' o (cs_o : list cell) :
  reachable s →
  run_call fuel k s = Done tt s' →
  is_list s o cs_o →
  target k ≠ Some o →
  is_list s' o cs_o.
Proof.
  intros Hinv%reachable_inv Hrun Hlo Ht. destruct (Hinv) as [Hall _].
  destruct k as [|self x|self x|self]; simpl in Hrun, Ht.
  - apply bind_inv in Hrun as (r & s1 & Hnew & Hret). injection Hret as <-.
    destruct (new_LinkedList_spec s) as (s0 & Hrun & _ & Hn & _ & Hlists).
    rewrite Hnew in Hrun. injection Hrun as _ <-.
    eapply (is_list_agree s); [| |exact Hlo].
    + rewrite Hlists. apply lookup_insert_ne. intros Heq.
      destruct Hlo as (L & HL & _). apply elem_of_dom_2 in HL.
      rewrite <- Heq in HL. by apply is_fresh in HL.
    + intros l _. by rewrite Hn.
  - assert (Ho : o ≠ self) by congruence.
    destruct (Hall self (add_self _ _ _ _ _ _ Hrun)) as (cs & Hcs).
    destruct (add_spec s self cs x (fuel `max` length cs) Hcs)
      as (s1 & Hadd & _ & _ & _ & Hlists & Hnodes & _); [lia|].
    rewrite (add_mono _ (fuel `max` length cs) _ _ _ _ _ Hrun) in Hadd; [|lia].
    injection Hadd as <-. by eapply other_list_kept.
  - assert (Ho : o ≠ self) by congruence.
    apply bind_inv in Hrun as (r & s1 & Hrem & Hret). injection Hret as <-.
    destruct (Hall self (remove_self _ _ _ _ _ _ Hrem)) as (cs & Hcs).
    apply (remove_mono _ (fuel `max` length cs)) in Hrem; [|lia].
    destruct (decide (x ∈ cs.*2)) as [Hin|Hnot].
    + destruct (first_occurrence x cs (occurrences_pos _ _ Hin))
        as (a & c & b & -> & Ha & _).
      destruct (remove_spec_present s self a c x b
                  (fuel `max` length (a ++ (c, x) :: b)) Hcs Ha)
        as (s2 & Hrun & _ & _ & _ & _ & Hlists & Hnodes & _).
      { rewrite length_app. simpl. lia. }
      rewrite Hrem in Hrun. injection Hrun as _ <-.
      eapply other_list_kept; eauto.
      intros l _ Hnot. apply Hnodes. intros Hin'. apply Hnot.
      rewrite fmap_app. apply elem_of_app. by left.
    + rewrite (remove_spec_absent s self cs x _ Hcs Hnot) in Hrem; [|lia].
      by injection Hrem as _ <-.
  - destruct (Hall self (display_self _ _ _ _ _ Hrun)) as (cs & Hcs).
    apply (display_mono _ (fuel `max` length cs)) in Hrun; [|lia].
    rewrite (display_run s self cs _ Hcs) in Hrun; [|lia].
    injection Hrun as <-. by eapply (is_list_agree s).
Qed.

Lemma call_leaves_other_lists_witness :
  is_list
    (after_call (Remove 1%positive "Bob")
       (after_call (Add 2%positive "Bob")
          (after_call New
             (after_call (Add 1%positive "Bob")
                (after_call (Add 1%positive "Alice")
                   (after_call New empty_store))))))
    2%positive [(3%positive, "Bob")].
Proof.
  apply (call_leaves_other_lists
           (after_call (Add 2%positive "Bob")
              (after_call New
                 (after_call (Add 1%positive "Bob")
                    (after_call (Add 1%positive "Alice")
                       (after_call New empty_store)))))
           (Remove 1%positive "Bob") 4).
  - reachable_by_eval.
  - vm_compute. reflexivity.
  - list_by_eval.
  - discriminate.
Defined.

End OtherLists.

Section Cycles.
Implicit Types (s : store) (fuel : nat) (x : string) (self c : loc)
  (X : gset loc).

Lemma add_loop_diverges X fuel : ∀ s c,
  closed_under_next (nodes s) X → c ∈ X → add_loop fuel c s = Timeout.
Proof.
  induction fuel as [|fuel IH]; intros s c Hclosed Hc; [done|]. simpl.
  destruct (Hclosed c Hc) as (n & c' & Hn & Hnx & Hc').
  rewrite (bind_Done _ _ _ _ _ (read_next_Done _ _ _ Hn)), Hnx.
  by apply IH.
Qed.

Lemma display_loop_diverges X fuel : ∀ s c,
  closed_under_next (nodes s) X → c ∈ X →
  display_loop fuel (Some c) s = Timeout.
Proof.
  induction fuel as [|fuel IH]; intros s c Hclosed Hc; [done|]. simpl.
  destruct (Hclosed c Hc) as (n & c' & Hn & Hnx & Hc').
  rewrite (bind_Done _ _ _ _ _ (read_name_Done _ _ _ Hn)).
  unfold mbind at 1, M_bind at 1. unfold print at 1.
  set (s1 := mkStore _ _ _).
  assert (Hn1 : nodes s1 !! c = Some n) by done.
  rewrite (bind_Done _ _ _ _ _ (read_next_Done _ _ _ Hn1)), Hnx.
  by apply IH.
Qed.

Lemma remove_loop_diverges X fuel : ∀ s self x c prev,
  closed_under_next (nodes s) X →
  (∀ l n, l ∈ X → nodes s !! l = Some n → name n ≠ x) →
  c ∈ X →
  remove_loop fuel self x (Some c) prev s = Timeout.
Proof.
  induction fuel as [|fuel IH]; intros s self x c prev Hclosed Hx Hc; [done|].
  simpl. destruct (Hclosed c Hc) as (n & c' & Hn & Hnx & Hc').
  rewrite (bind_Done _ _ _ _ _ (read_name_Done _ _ _ Hn)).
  rewrite (proj2 (String.eqb_neq _ _) (Hx c n Hc Hn)).
  rewrite (bind_Done _ _ _ _ _ (read_next_Done _ _ _ Hn)), Hnx.
  by apply IH.
Qed.

(** X8.  The loops have no guard against a cycle.  When the [head] of a
    list is in a set of nodes that the walk along [next] cannot leave (a
    chain that runs into itself), [add] and [display] on this list do not
    finish, whatever the fuel, and neither does [remove(x)] when no node
    of the set is named [x]. *)
Theorem traversal_of_cycle_never_ends s self X c x fuel :
  lists s !! self = Some (mkLinkedList (Some c)) →
  c ∈ X →
  closed_under_next (nodes s) X →
  add fuel self x s = Timeout ∧
  display fuel self s = Timeout ∧
  ((∀ l n, l ∈ X → nodes s !! l = Some n → name n ≠ x) →
   remove fuel self x s = Timeout).
Proof.
  intros Hself Hc Hclosed. split; [|split].
  - unfold add. unfold mbind at 1, M_bind at 1. unfold new_Node.
    set (s1 := mkStore _ _ _).
    assert (Hself1 : lists s1 !! self = Some (mkLinkedList (Some c))) by done.
    rewrite (bind_Done _ _ _ _ _ (read_head_Done _ _ _ Hself1)). simpl.
    unfold mbind, M_bind. rewrite (add_loop_diverges X); [done| |done].
    intros l Hl. destruct (Hclosed l Hl) as (n & l' & Hn & Hnx & Hl').
    exists n, l'. split; [|done]. simpl. rewrite lookup_insert_ne; [done|].
    intros <-. apply elem_of_dom_2 in Hn. by apply is_fresh in Hn.
  - unfold display.
    rewrite (bind_Done _ _ _ _ _ (read_head_Done _ _ _ Hself)). simpl.
    by apply (display_loop_diverges X).
  - intros Hx. unfold remove.
    rewrite (bind_Done _ _ _ _ _ (read_head_Done _ _ _ Hself)). simpl.
    by apply (remove_loop_diverges X).
Qed.

Lemma traversal_of_cycle_never_ends_witness :
  add 1000 1%positive "Eve" tied = Timeout ∧
  display 1000 1%positive tied = Timeout ∧
  ((∀ l n, l ∈ ({[1%positive]} : gset loc) → nodes tied !! l = Some n →
           name n ≠ "Eve") →
   remove 1000 1%positive "Eve" tied = Timeout).
Proof.
  apply (traversal_of_cycle_never_ends tied 1%positive {[1%positive]}
           1%positive "Eve" 1000).
  - reflexivity.
  - apply elem_of_singleton. reflexivity.
  - intros l Hl. apply elem_of_singleton in Hl. subst l.
    exists (mkNode "Ouroboros" (Some 1%positive)), 1%positive.
    split; [reflexivity|]. split; [reflexivity|].
    apply elem_of_singleton. reflexivity.
Defined.

End Cycles.

Section Output.
Implicit Types (s : store) (cs : list cell) (fuel : nat)
  (x y : string) (xs ys : list string) (self o : loc).




(** X10.  Calls of [add] on a list that already holds nodes put the new
    names after the ones it holds, in the order of the calls: after one
    [add] per name of [xs] the list holds its old cells followed by one
    new cell per name, and [display] prints the old names and then
    [xs]. *)
Theorem add_all_extends s self cs xs fuel :
  is_list s self cs →
  length cs + length xs ≤ fuel →
  ∃ s1 cs' s2, add_all fuel self xs s = Done tt s1 ∧
               is_list s1 self (cs ++ cs') ∧ cs'.*2 = xs ∧
               display fuel self s1 = Done tt s2 ∧
               stdout s2 = stdout s ++ shown (cs.*2 ++ xs).
Proof.
  intros Hcs Hf.
  destruct (add_all_spec xs s self cs fuel Hcs Hf)
    as (s1 & cs' & Hrun & Hl1 & Hn & Hout).
  exists s1, cs'. eexists. split; [done|]. split; [done|]. split; [done|].
  rewrite (display_run s1 self _ fuel Hl1).
  - split; [reflexivity|]. simpl. by rewrite fmap_app, Hn, Hout.
  - rewrite length_app, <- (length_fmap snd cs'), Hn. lia.
Qed.

Lemma add_all_extends_witness :
  ∃ s1 cs' s2,
    add_all 4 1%positive ["Eve"; "Bob"] (sample ["Alice"; "Bob"]) = Done tt s1 ∧
    is_list s1 1%positive
      ([(1%positive, "Alice"); (2%positive, "Bob")] ++ cs') ∧
    cs'.*2 = ["Eve"; "Bob"] ∧
    display 4 1%positive s1 = Done tt s2 ∧
    stdout s2 = stdout (sample ["Alice"; "Bob"])
                ++ shown ([(1%positive, "Alice"); (2%positive, "Bob")].*2
                          ++ ["Eve"; "Bob"]).
Proof.
  apply (add_all_extends (sample ["Alice"; "Bob"]) 1%positive
           [(1%positive, "Alice"); (2%positive, "Bob")] ["Eve"; "Bob"] 4).
  - list_by_eval.
  - simpl. lia.
Defined.

End Output.

Section Example.
Implicit Types (s : store) (cs : list cell) (fuel : nat) (self : loc).

Lemma is_list_print s self cs out :
  is_list s self cs → is_list (mkStore (nodes s) (lists s) out) self cs.
Proof. intros Hcs. by eapply (is_list_agree s). Qed.

Lemma print_Done line s :
  print line s = Done tt (mkStore (nodes s) (lists s) (stdout s ++ [line])).
Proof. reflexivity. Qed.

(** X11.  The statements of lines 51-64, run in any store with fuel for
    four loop rounds, finish.  They print the heading, the four names in
    the order of the [add] calls, the line that announces the removal (it
    begins with a line feed), the second heading, and the three names
    that are left, "Bob" being the one taken out; at the end the new list
    holds "Alice", "Charlie" and "Garfield". *)
Theorem example_usage_prints s fuel :
  4 ≤ fuel →
  ∃ s' cs,
    example_usage fuel s = Done tt s' ∧
    stdout s' = stdout s ++
                  ["Current List:"; "Alice"; "Bob"; "Charlie"; "Garfield";
                   String (Ascii.ascii_of_nat 10) "Removing Bob...";
                   "Updated List:"; "Alice"; "Charlie"; "Garfield"] ∧
    is_list s' (fresh (dom (lists s))) cs ∧
    cs.*2 = ["Alice"; "Charlie"; "Garfield"].
Proof.
  intros Hf. unfold example_usage.
  destruct (new_LinkedList_spec s) as (s0 & Hnew & Hl0 & _ & Hout0 & _).
  set (my_list := fresh (dom (lists s))) in *.
  rewrite (bind_Done _ _ _ _ _ Hnew).
  destruct (add_spec s0 my_list _ "Alice" fuel Hl0) as (s1 & Hadd1 & Hl1 & Hout1 & _);
    [simpl; lia|].
  rewrite (bind_Done _ _ _ _ _ Hadd1).
  destruct (add_spec s1 my_list _ "Bob" fuel Hl1) as (s2 & Hadd2 & Hl2 & Hout2 & _);
    [simpl; lia|].
  rewrite (bind_Done _ _ _ _ _ Hadd2).
  destruct (add_spec s2 my_list _ "Charlie" fuel Hl2)
    as (s3 & Hadd3 & Hl3 & Hout3 & _); [simpl; lia|].
  rewrite (bind_Done _ _ _ _ _ Hadd3).
  destruct (add_spec s3 my_list _ "Garfield" fuel Hl3)
    as (s4 & Hadd4 & Hl4 & Hout4 & _); [simpl; lia|].
  rewrite (bind_Done _ _ _ _ _ Hadd4). simpl in Hl4.
  rewrite (bind_Done _ _ _ _ _ (print_Done _ s4)).
  rewrite (bind_Done _ _ _ _ _
             (display_run _ my_list _ fuel (is_list_print _ _ _ _ Hl4)
                ltac:(simpl; lia))).
  cbn [nodes lists stdout].
  rewrite (bind_Done _ _ _ _ _ (print_Done _ _)). cbn [nodes lists stdout].
  match goal with
  | |- context [mkStore (nodes s4) (lists s4) ?out] =>
      destruct (remove_spec_present (mkStore (nodes s4) (lists s4) out) my_list
                  [(fresh (dom (nodes s0)), "Alice")] (fresh (dom (nodes s1)))
                  "Bob" _ fuel (is_list_print _ _ _ out Hl4))
        as (s5 & Hrem & Hl5 & Hout5 & _)
  end.
  { apply (bool_decide_unpack _). vm_compute. reflexivity. }
  { simpl. lia. }
  rewrite (bind_Done _ _ _ _ _ Hrem). simpl in Hl5.
  rewrite (bind_Done _ _ _ _ _ (print_Done _ s5)).
  rewrite (display_run _ my_list _ fuel (is_list_print _ _ _ _ Hl5))
    by (simpl; lia).
  eexists. eexists. split; [reflexivity|]. cbn [nodes lists stdout].
  split; [|split; [by apply is_list_print|reflexivity]].
  rewrite Hout5. cbn [stdout]. rewrite Hout4, Hout3, Hout2, Hout1, Hout0.
  rewrite <- !app_assoc. reflexivity.
Qed.

Lemma example_usage_prints_witness :
  ∃ s' cs,
    example_usage 4 empty_store = Done tt s' ∧
    stdout s' = stdout empty_store ++
                  ["Current List:"; "Alice"; "Bob"; "Charlie"; "Garfield";
                   String (Ascii.ascii_of_nat 10) "Removing Bob...";
                   "Updated List:"; "Alice"; "Charlie"; "Garfield"] ∧
    is_list s' (fresh (dom (lists empty_store))) cs ∧
    cs.*2 = ["Alice"; "Charlie"; "Garfield"].
Proof. apply (example_usage_prints empty_store 4). lia. Defined.

End Example.
